(** * Tic-Tac-Toe multiplayer server (server.js): rooms, turns and the board

    A shallow embedding of the room store, the game logic and the five
    Socket.IO handlers of [server.js], followed by the properties of the
    room lifecycle and of the turn-based state machine.

    Conventions of the embedding.
    - A JavaScript [Map] is an association list in insertion order (the
      order [for ... of rooms] visits), with the [Map] operations written
      out below; a plain object used as a dictionary ([room.symbols]) is
      a [gmap].
    - A room is a mutable object owned by the store under one key; a
      handler that mutates the room it looked up writes the new value
      back under the key the room was found at.
    - A handler is a function from the store, the socket id and the
      payload to a [Result]: the store after the handler, the messages
      it sent, in order, and whether it returned or threw.
    - Strings are sequences of one-byte characters: room codes, socket
      ids and the strings of a payload are ASCII text. A payload is a
      value parsed from JSON. Socket ids are the identifiers the
      transport hands out; none of them is the name of a member that
      every object inherits, so [room.symbols[socket.id]] reads an own
      property or [undefined].
    - Line numbers refer to [server.js]. *)

From Stdlib Require Import ZArith Ascii String Lia.
From stdpp Require Import base list gmap strings.

Set Warnings "-register-all".

Local Open Scope string_scope.
Local Open Scope list_scope.

(** ** Data model *)

(** The two symbols, ['X'] and ['O']. *)
Inductive Marker := X | O.

#[global] Instance Marker_eq_dec : EqDecision Marker.
Proof. solve_decision. Defined.

(** A board cell: [None] is [null], [Some m] is the symbol [m]. *)
Abbreviation Cell := (option Marker) (only parsing).

(** A room object (lines 36-44 and 67-74). *)
Record Room := mkRoom {
  code : string;
  players : list string;
  board : list Cell;
  currentPlayer : Marker;
  gameActive : bool;
  symbols : gmap string Marker
}.

(** The [rooms] map: keys in insertion order. *)
Abbreviation Rooms := (list (string * Room)) (only parsing).

(** [rooms.has(k)] *)
Definition rooms_has (rooms : Rooms) (k : string) : bool :=
  bool_decide (k ∈ rooms.*1).

(** [rooms.get(k)]; [None] is [undefined]. *)
Fixpoint rooms_get (rooms : Rooms) (k : string) : option Room :=
  match rooms with
  | [] => None
  | (k', rm) :: rest => if decide (k' = k) then Some rm else rooms_get rest k
  end.

(** [rooms.set(k, v)]: an existing key keeps its position, a new key is
    appended. The same function writes back a room mutated in place. *)
Fixpoint rooms_set (rooms : Rooms) (k : string) (v : Room) : Rooms :=
  match rooms with
  | [] => [(k, v)]
  | (k', rm) :: rest =>
      if decide (k' = k) then (k, v) :: rest else (k', rm) :: rooms_set rest k v
  end.

(** [rooms.delete(k)] *)
Definition rooms_delete (rooms : Rooms) (k : string) : Rooms :=
  filter (λ kv, kv.1 ≠ k) rooms.

(** ** Game logic *)

(** [WINNING_COMBINATIONS] (lines 106-115): rows, columns, diagonals. *)
Definition WINNING_COMBINATIONS : list (nat * nat * nat) :=
  [ (0, 1, 2); (3, 4, 5); (6, 7, 8);
    (0, 3, 6); (1, 4, 7); (2, 5, 8);
    (0, 4, 8); (2, 4, 6) ]%nat.

(** What [checkWinner] returns: a symbol, ['draw'] or [null]. *)
Inductive Verdict :=
| Win (m : Marker)
| Draw
| InProgress.

#[global] Instance Verdict_eq_dec : EqDecision Verdict.
Proof. solve_decision. Defined.

(** The [for] loop of [checkWinner] over a list of combinations.
    [bd !! a] is [board[a]]: [None] is [undefined] (falsy), [Some None]
    is [null] (falsy), [Some (Some m)] is a symbol (truthy). *)
Fixpoint scan_combos (bd : list Cell) (combos : list (nat * nat * nat))
  : option Marker :=
  match combos with
  | [] => None
  | (a, b, c) :: rest =>
      match bd !! a with
      | Some (Some m) =>
          if bool_decide (bd !! a = bd !! b) && bool_decide (bd !! a = bd !! c)
          then Some m
          else scan_combos bd rest
      | _ => scan_combos bd rest
      end
  end.

(** [checkWinner] (lines 121-136). *)
Definition checkWinner (bd : list Cell) : Verdict :=
  match scan_combos bd WINNING_COMBINATIONS with
  | Some m => Win m
  | None =>
      if forallb (λ cell, bool_decide (cell ≠ None)) bd then Draw
      else InProgress
  end.

(** [resetGame] (lines 141-145). *)
Definition resetGame (rm : Room) : Room :=
  {| code := code rm;
     players := players rm;
     board := replicate 9 None;
     currentPlayer := X;
     gameActive := true;
     symbols := symbols rm |}.

(** ** Strings and payload values *)

(** [String.prototype.toUpperCase] on ASCII text, the text this
    development covers: the letters [a]-[z] are mapped to [A]-[Z], every
    other character is kept. Room codes and the alphabet of the
    generator are ASCII. On other text the library function also maps
    letters beyond [z] and may change the length of the string; line 185
    measures the string it returns. *)
Definition upper_ascii (c : ascii) : ascii :=
  let n := nat_of_ascii c in
  if (97 <=? n)%nat && (n <=? 122)%nat then ascii_of_nat (n - 32) else c.

Fixpoint toUpperCase (s : string) : string :=
  match s with
  | EmptyString => EmptyString
  | String c rest => String (upper_ascii c) (toUpperCase rest)
  end.

(** [s.charAt(i)]: the empty string out of range. *)
Definition charAt (s : string) (i : nat) : string :=
  match String.get i s with
  | Some c => String c EmptyString
  | None => EmptyString
  end.

(** A value received as an event payload, as the transport parses it
    from JSON. Numbers are the integer-valued ones; an object has its
    fields as own data properties, an array its items. *)
Inductive JsVal :=
| JUndefined
| JNull
| JBool (b : bool)
| JNum (z : Z)
| JStr (s : string)
| JObj (fields : list (string * JsVal))
| JArr (items : list JsVal).

Inductive JsError := TypeError.

(** The result of evaluating an expression that may throw. *)
Inductive Completion (A : Type) :=
| Ok (a : A)
| Throws (e : JsError).
Arguments Ok {A} a.
Arguments Throws {A} e.

Fixpoint assoc_lookup (fields : list (string * JsVal)) (name : string)
  : option JsVal :=
  match fields with
  | [] => None
  | (n, v) :: rest => if decide (n = name) then Some v else assoc_lookup rest name
  end.

(** The property read [v.name] for the two names the handlers read
    ([roomCode], [cellIndex]): a [TypeError] on [undefined] and [null],
    the own property of a data object, [undefined] on a missing property
    and on arrays and the other primitives (their prototypes have
    neither name). *)
Definition js_get (v : JsVal) (name : string) : Completion JsVal :=
  match v with
  | JUndefined | JNull => Throws TypeError
  | JObj fields => Ok (default JUndefined (assoc_lookup fields name))
  | _ => Ok JUndefined
  end.

(** [data.roomCode?.toUpperCase()] (line 182). The optional chain yields
    [undefined] ([None]) when [roomCode] is [undefined] or [null]; on a
    string it calls the method; on any other value [toUpperCase] is
    [undefined], or a field that is data, and the call throws. *)
Definition roomCode_toUpperCase (data : JsVal) : Completion (option string) :=
  match js_get data "roomCode" with
  | Throws e => Throws e
  | Ok JUndefined | Ok JNull => Ok None
  | Ok (JStr s) => Ok (Some (toUpperCase s))
  | Ok _ => Throws TypeError
  end.

Definition is_digit (c : ascii) : bool :=
  let n := nat_of_ascii c in (48 <=? n)%nat && (n <=? 57)%nat.

Fixpoint digits_value (acc : nat) (s : string) : option nat :=
  match s with
  | EmptyString => Some acc
  | String c rest =>
      if is_digit c then digits_value (10 * acc + (nat_of_ascii c - 48)) rest
      else None
  end.

(** The array index a string denotes as a property key: a decimal
    numeral without sign, blanks or leading zero. *)
Definition canonical_index (s : string) : option nat :=
  match s with
  | EmptyString => None
  | String "0" EmptyString => Some 0%nat
  | String "0" _ => None
  | _ => digits_value 0 s
  end.

(** Converting [v] to a primitive throws a [TypeError]. An object
    parsed from JSON inherits [valueOf], which returns the object, and
    [toString]; an own field named [toString] hides the inherited
    method and, being data, cannot be called: no method is left that
    returns a primitive. An array is converted by joining the strings
    of its items, so it throws when the conversion of an item does. *)
Fixpoint unprintable (v : JsVal) : bool :=
  match v with
  | JObj fields => bool_decide ("toString" ∈ fields.*1)
  | JArr items => existsb unprintable items
  | _ => false
  end.

(** The element [board[v]] addresses, if any, for a [v] that converts
    to a primitive: a number or a string whose property key is an array
    index, or an array of one item that is such a value (the array
    converts to the string of its item). Every other key ([undefined],
    [true], a negative number, [length], the string of an object or of
    an array of several items, ...) names no element, and [board[v]] is
    then [undefined] or an inherited member, never [null]. When
    [array_index v = Some i], the number [v] converts to in [v < 0] and
    [v > 8] is [i]. *)
Fixpoint array_index (v : JsVal) : option nat :=
  match v with
  | JNum z => if (0 <=? z)%Z then Some (Z.to_nat z) else None
  | JStr s => canonical_index s
  | JArr [item] => array_index item
  | _ => None
  end.

(** ** Code generator *)

Definition chars : string := "ABCDEFGHIJKLMNOPQRSTUVWXYZ0123456789".

(** The inner [for] loop of [generateRoomCode] (lines 55-57), [n]
    iterations left. [draws] holds the values
    [Math.floor(Math.random() * chars.length)] takes, in order; [None]
    when they run out. *)
Fixpoint build_code (n : nat) (acc : string) (draws : list nat)
  : option (string * list nat) :=
  match n with
  | 0%nat => Some (acc, draws)
  | S n' =>
      match draws with
      | [] => None
      | d :: rest => build_code n' (acc +:+ charAt chars d) rest
      end
  end.

(** The [do ... while (rooms.has(code))] loop (lines 53-58). *)
Fixpoint generate_loop (fuel : nat) (rooms : Rooms) (draws : list nat)
  : option (string * list nat) :=
  match fuel with
  | 0%nat => None
  | S fuel' =>
      match build_code 6 "" draws with
      | None => None
      | Some (c, rest) =>
          if rooms_has rooms c then generate_loop fuel' rooms rest
          else Some (c, rest)
      end
  end.

(** [generateRoomCode] (lines 50-60): the code and the draws left, or
    [None] when the loop has not ended by the time the draws run out.
    Every iteration uses six draws, so [length draws] iterations are
    never exceeded. *)
Definition generateRoomCode (rooms : Rooms) (draws : list nat)
  : option (string * list nat) :=
  generate_loop (length draws) rooms draws.

(** ** Store functions *)

(** [createRoom] (lines 65-78). *)
Definition createRoom (rooms : Rooms) (socketId : string) (draws : list nat)
  : option (Rooms * Room) :=
  match generateRoomCode rooms draws with
  | None => None
  | Some (c, _) =>
      let room :=
        {| code := c;
           players := [socketId];
           board := replicate 9 None;
           currentPlayer := X;
           gameActive := false;
           symbols := {[ socketId := X ]} |} in
      Some (rooms_set rooms c room, room)
  end.

(** [getRoom] (lines 83-85). *)
Definition getRoom (rooms : Rooms) (c : string) : option Room :=
  rooms_get rooms (toUpperCase c).

(** [findPlayerRoom] (lines 90-97): the first entry, in insertion order,
    whose [players] include the socket, with the key it sits at. *)
Fixpoint findPlayerRoom (rooms : Rooms) (socketId : string)
  : option (string * Room) :=
  match rooms with
  | [] => None
  | (k, rm) :: rest =>
      if bool_decide (socketId ∈ players rm) then Some (k, rm)
      else findPlayerRoom rest socketId
  end.

(** ** Messages *)

(** The outbound events with their payload fields. *)
Inductive ServerEvent :=
| EvError (message : string)
| EvRoomCreated (roomCode : string) (symbol : Marker)
| EvJoinedRoom (roomCode : string) (symbol : Marker)
| EvGameStart (bd : list Cell) (current : Marker) (message : string)
| EvMoveMade (bd : list Cell) (current : Marker) (cellIndex : JsVal)
    (symbol : Marker)
| EvGameEnd (bd : list Cell) (winner : Verdict) (message : string)
| EvPlayerDisconnected (message : string).

(** What a handler asks of the transport: [socket.join(code)],
    [socket.emit(...)] to the requesting socket alone, and
    [io.to(code).emit(...)] to every socket joined to [code]. *)
Inductive Action :=
| SocketJoin (socketId roomCode : string)
| SocketEmit (socketId : string) (ev : ServerEvent)
| IoToEmit (roomCode : string) (ev : ServerEvent).

(** The error messages, under the names of the error taxonomy. *)
Definition AlreadyInSession : string := "Sei già in una stanza.".
Definition InvalidCode : string := "Codice stanza non valido.".
Definition NotFound : string := "Stanza non trovata.".
Definition SessionFull : string := "Stanza piena.".
Definition NotInSession : string := "Non sei in una stanza.".
Definition GameNotActive : string := "La partita non è attiva.".
Definition NotYourTurn : string := "Non è il tuo turno.".
Definition InvalidMove : string := "Mossa non valida.".
Definition InsufficientPlayers : string := "Servono 2 giocatori per iniziare.".

Definition marker_name (m : Marker) : string :=
  match m with X => "X" | O => "O" end.

(** How a handler ended. *)
Inductive Ending :=
| Returned
| Threw (e : JsError).

Record Result := mkResult {
  r_rooms : Rooms;
  r_out : list Action;
  r_end : Ending
}.

(** [socket.emit('error', { message }); return;] *)
Definition reply_error (rooms : Rooms) (socketId message : string) : Result :=
  mkResult rooms [SocketEmit socketId (EvError message)] Returned.

(** ** Handlers *)

(** [socket.on('createRoom')] (lines 158-175). [None] when
    [generateRoomCode] has not returned. *)
Definition on_createRoom (rooms : Rooms) (socketId : string) (draws : list nat)
  : option Result :=
  match findPlayerRoom rooms socketId with
  | Some _ => Some (reply_error rooms socketId AlreadyInSession)
  | None =>
      match createRoom rooms socketId draws with
      | None => None
      | Some (rooms', room) =>
          Some (mkResult rooms'
                  [ SocketJoin socketId (code room);
                    SocketEmit socketId (EvRoomCreated (code room) X) ]
                  Returned)
      end
  end.

(** [socket.on('joinRoom')] (lines 181-230). The room returned by
    [getRoom] lives under the key [toUpperCase c]; the three
    assignments of lines 211-213 are written back there. *)
Definition on_joinRoom (rooms : Rooms) (socketId : string) (data : JsVal)
  : Result :=
  match roomCode_toUpperCase data with
  | Throws e => mkResult rooms [] (Threw e)
  | Ok None => reply_error rooms socketId InvalidCode
  | Ok (Some c) =>
      if bool_decide (c = "") || bool_decide (String.length c ≠ 6%nat)
      then reply_error rooms socketId InvalidCode
      else
        match getRoom rooms c with
        | None => reply_error rooms socketId NotFound
        | Some room =>
            if (2 <=? length (players room))%nat
            then reply_error rooms socketId SessionFull
            else
              match findPlayerRoom rooms socketId with
              | Some _ => reply_error rooms socketId AlreadyInSession
              | None =>
                  let room' :=
                    {| code := code room;
                       players := (players room ++ [socketId])%list;
                       board := board room;
                       currentPlayer := currentPlayer room;
                       gameActive := true;
                       symbols := <[socketId := O]> (symbols room) |} in
                  mkResult (rooms_set rooms (toUpperCase c) room')
                    [ SocketJoin socketId (code room');
                      SocketEmit socketId (EvJoinedRoom (code room') O);
                      IoToEmit (code room')
                        (EvGameStart (board room') (currentPlayer room')
                           "La partita è iniziata! X inizia.") ]
                    Returned
              end
        end
  end.

(** [playerSymbol === 'X' ? 'O' : 'X'] (line 266). *)
Definition other_marker (m : Marker) : Marker :=
  match m with X => O | O => X end.

(** [socket.on('makeMove')] (lines 236-301).

    Line 259, [cellIndex < 0 || cellIndex > 8 || room.board[cellIndex]
    !== null], first converts [cellIndex] to a primitive, and throws
    when that fails. Otherwise it is evaluated through [array_index]:
    when [cellIndex] addresses no element the last disjunct holds
    whatever the first two gave; when it addresses element [i] the
    first is false, the second is [8 < i] and the third reads the cell.
    Line 265 then writes that element; it exists, the cell having been
    read as [null]. *)
Definition on_makeMove (rooms : Rooms) (socketId : string) (data : JsVal)
  : Result :=
  match findPlayerRoom rooms socketId with
  | None => reply_error rooms socketId NotInSession
  | Some (k, room) =>
      if negb (gameActive room)
      then reply_error rooms socketId GameNotActive
      else
        let playerSymbol := symbols room !! socketId in
        match js_get data "cellIndex" with
        | Throws e => mkResult rooms [] (Threw e)
        | Ok cellIndex =>
            match playerSymbol with
            | None => reply_error rooms socketId NotYourTurn
            | Some sym =>
                if bool_decide (sym ≠ currentPlayer room)
                then reply_error rooms socketId NotYourTurn
                else if unprintable cellIndex
                then mkResult rooms [] (Threw TypeError)
                else
                  match array_index cellIndex with
                  | None => reply_error rooms socketId InvalidMove
                  | Some i =>
                      if (8 <? i)%nat
                         || bool_decide (board room !! i ≠ Some None)
                      then reply_error rooms socketId InvalidMove
                      else
                        let bd' := <[i := Some sym]> (board room) in
                        let turn' := other_marker sym in
                        match checkWinner bd' with
                        | InProgress =>
                            let room' :=
                              {| code := code room;
                                 players := players room;
                                 board := bd';
                                 currentPlayer := turn';
                                 gameActive := gameActive room;
                                 symbols := symbols room |} in
                            mkResult (rooms_set rooms k room')
                              [ IoToEmit (code room)
                                  (EvMoveMade bd' turn' cellIndex sym) ]
                              Returned
                        | winner =>
                            let room' :=
                              {| code := code room;
                                 players := players room;
                                 board := bd';
                                 currentPlayer := turn';
                                 gameActive := false;
                                 symbols := symbols room |} in
                            let message :=
                              match winner with
                              | Win m => marker_name m +:+ " ha vinto!"
                              | _ => "Pareggio!"
                              end in
                            mkResult (rooms_set rooms k room')
                              [ IoToEmit (code room)
                                  (EvGameEnd bd' winner message) ]
                              Returned
                        end
                  end
            end
        end
  end.

(** [socket.on('newGame')] (lines 307-329). *)
Definition on_newGame (rooms : Rooms) (socketId : string) : Result :=
  match findPlayerRoom rooms socketId with
  | None => reply_error rooms socketId NotInSession
  | Some (k, room) =>
      if bool_decide (length (players room) ≠ 2%nat)
      then reply_error rooms socketId InsufficientPlayers
      else
        let room' := resetGame room in
        mkResult (rooms_set rooms k room')
          [ IoToEmit (code room')
              (EvGameStart (board room') (currentPlayer room')
                 "Nuova partita! X inizia.") ]
          Returned
  end.

(** [socket.on('disconnect')] (lines 335-356). *)
Definition on_disconnect (rooms : Rooms) (socketId : string) : Result :=
  match findPlayerRoom rooms socketId with
  | None => mkResult rooms [] Returned
  | Some (k, room) =>
      let room' :=
        {| code := code room;
           players := filter (λ id, id ≠ socketId) (players room);
           board := board room;
           currentPlayer := currentPlayer room;
           gameActive := false;
           symbols := delete socketId (symbols room) |} in
      let rooms' := rooms_set rooms k room' in
      let notice :=
        IoToEmit (code room')
          (EvPlayerDisconnected "L'avversario si è disconnesso.") in
      if bool_decide (length (players room') = 0%nat)
      then mkResult (rooms_delete rooms' (code room')) [notice] Returned
      else mkResult rooms' [notice] Returned
  end.

(** ** The server as a transition system *)

(** An inbound event on a socket. [CreateRoom] carries the values the
    random source yields while the handler runs. *)
Inductive ClientEvent :=
| CreateRoom (draws : list nat)
| JoinRoom (data : JsVal)
| MakeMove (data : JsVal)
| NewGame
| Disconnect.

Definition handle (rooms : Rooms) (socketId : string) (ev : ClientEvent)
  : option Result :=
  match ev with
  | CreateRoom draws => on_createRoom rooms socketId draws
  | JoinRoom data => Some (on_joinRoom rooms socketId data)
  | MakeMove data => Some (on_makeMove rooms socketId data)
  | NewGame => Some (on_newGame rooms socketId)
  | Disconnect => Some (on_disconnect rooms socketId)
  end.

(** [Math.random()] lies in [[0, 1)], so every draw is below
    [chars.length]. *)
Definition draws_ok (draws : list nat) : Prop :=
  Forall (λ d, d < 36)%nat draws.

Definition event_ok (ev : ClientEvent) : Prop :=
  match ev with
  | CreateRoom draws => draws_ok draws
  | _ => True
  end.

(** The stores the server can be in: it starts with no room (line 45)
    and handles one event at a time. *)
Inductive reachable : Rooms → Prop :=
| reach_init : reachable []
| reach_step rooms socketId ev res :
    reachable rooms →
    event_ok ev →
    handle rooms socketId ev = Some res →
    reachable (r_rooms res).

(** ** Predicates used in the properties *)

(** The triple [t] is completed by [m]: its three cells hold [m]. *)
Definition completes (bd : list Cell) (t : nat * nat * nat) (m : Marker)
  : Prop :=
  bd !! t.1.1 = Some (Some m) ∧ bd !! t.1.2 = Some (Some m)
  ∧ bd !! t.2 = Some (Some m).

Definition completed (bd : list Cell) (t : nat * nat * nat) : Prop :=
  ∃ m, completes bd t m.

(** Every cell is occupied. *)
Definition full (bd : list Cell) : Prop :=
  ∀ cell, cell ∈ bd → cell ≠ None.

(** The three rows, the three columns and the two diagonals of the grid,
    as triples of cell indices. *)
Definition rows : list (nat * nat * nat) :=
  (λ r, (3 * r, 3 * r + 1, 3 * r + 2)%nat) <$> [0; 1; 2]%nat.

Definition columns : list (nat * nat * nat) :=
  (λ c, (c, c + 3, c + 6)%nat) <$> [0; 1; 2]%nat.

Definition diagonals : list (nat * nat * nat) := [(0, 4, 8); (2, 4, 6)]%nat.

(** [t] is the first completed triple of [combos], and [m] completes it. *)
Definition first_completed (bd : list Cell) (combos : list (nat * nat * nat))
  (t : nat * nat * nat) (m : Marker) : Prop :=
  ∃ pre post, combos = (pre ++ t :: post)%list ∧ completes bd t m
              ∧ ∀ t', t' ∈ pre → ¬ completed bd t'.

Definition alphabet : list ascii := list_ascii_of_string chars.

(** Six characters, each from [A-Z0-9]. *)
Definition valid_code (k : string) : Prop :=
  String.length k = 6%nat
  ∧ Forall (λ ch, ch ∈ alphabet) (list_ascii_of_string k).

#[global] Instance valid_code_dec k : Decision (valid_code k).
Proof. unfold valid_code. apply _. Defined.

(** The participants of all rooms, room after room. *)
Definition all_players (rooms : list (string * Room)) : list string :=
  rooms ≫= λ kv, players kv.2.

(** Keys are distinct; every room sits at its own code, a valid one; no
    socket is listed twice, in one room or across rooms. *)
Definition store_ok (rooms : list (string * Room)) : Prop :=
  NoDup rooms.*1
  ∧ Forall (λ kv, code kv.2 = kv.1 ∧ valid_code kv.1) rooms
  ∧ NoDup (all_players rooms).

#[global] Instance store_ok_dec rooms : Decision (store_ok rooms).
Proof. unfold store_ok. apply _. Defined.

(** The payload [{cellIndex: z}]. *)
Definition move_payload (z : Z) : JsVal := JObj [("cellIndex", JNum z)].

(** The payload [{roomCode: s}]. *)
Definition join_payload (s : string) : JsVal := JObj [("roomCode", JStr s)].

(** The move of [socketId] passes the four guards of lines 239-262: the
    socket is found in [room], stored at [k]; the game is active; the
    socket's symbol is the current player; and the payload addresses the
    empty cell [i] of the board, [i] at most 8. *)
Definition move_accepted (rooms : list (string * Room)) (socketId : string)
    (data : JsVal) (k : string) (room : Room) (i : nat) : Prop :=
  findPlayerRoom rooms socketId = Some (k, room)
  ∧ gameActive room = true
  ∧ symbols room !! socketId = Some (currentPlayer room)
  ∧ (∃ v, js_get data "cellIndex" = Ok v ∧ array_index v = Some i)
  ∧ (i ≤ 8)%nat
  ∧ board room !! i = Some None.

(** The room after the move of line 265-266 and, when the game ends,
    line 274. *)
Definition moved (room : Room) (i : nat) : Room :=
  let bd' := <[i := Some (currentPlayer room)]> (board room) in
  {| code := code room;
     players := players room;
     board := bd';
     currentPlayer := other_marker (currentPlayer room);
     gameActive :=
       match checkWinner bd' with
       | InProgress => gameActive room
       | _ => false
       end;
     symbols := symbols room |}.

(** The room after lines 211-213. *)
Definition joined (room : Room) (socketId : string) : Room :=
  {| code := code room;
     players := players room ++ [socketId];
     board := board room;
     currentPlayer := currentPlayer room;
     gameActive := true;
     symbols := <[socketId := O]> (symbols room) |}.

(** The room after lines 341-343. *)
Definition left_by (room : Room) (socketId : string) : Room :=
  {| code := code room;
     players := filter (λ id, id ≠ socketId) (players room);
     board := board room;
     currentPlayer := currentPlayer room;
     gameActive := false;
     symbols := delete socketId (symbols room) |}.

Definition player_left : ServerEvent :=
  EvPlayerDisconnected "L'avversario si è disconnesso.".

(** A run of the server without reset during which the room stored at
    [k] stays in the store, with the symbols that moved in that room, in
    order: each step is either an accepted move in the room, or any
    other event but [newGame], on any socket. *)
Inductive play (k : string)
  : list (string * Room) → list Marker → list (string * Room) → Prop :=
| play_done rooms : play k rooms [] rooms
| play_move rooms socketId data room i movers rooms' :
    move_accepted rooms socketId data k room i →
    play k (r_rooms (on_makeMove rooms socketId data)) movers rooms' →
    play k rooms (currentPlayer room :: movers) rooms'
| play_other rooms socketId ev res movers rooms' :
    ev ≠ NewGame →
    event_ok ev →
    (∀ data room i,
       ev = MakeMove data → ¬ move_accepted rooms socketId data k room i) →
    handle rooms socketId ev = Some res →
    is_Some (rooms_get (r_rooms res) k) →
    play k (r_rooms res) movers rooms' →
    play k rooms movers rooms'.

(** Each symbol of the list is the other one than its predecessor. *)
Fixpoint alternating (ms : list Marker) : Prop :=
  match ms with
  | m1 :: (m2 :: _) as rest => m2 = other_marker m1 ∧ alternating rest
  | _ => True
  end.

#[global] Instance alternating_dec ms : Decision (alternating ms).
Proof.
  induction ms as [|m1 [|m2 rest] IH]; simpl; [left; exact I|left; exact I|].
  apply and_dec; [apply _|exact IH].
Defined.

(** Handling a sequence of events, each with the socket it arrives on:
    the final store and all messages sent, or [None] if a [createRoom]
    has not returned. *)
Fixpoint run (rooms : Rooms) (evs : list (string * ClientEvent))
  : option (Rooms * list Action) :=
  match evs with
  | [] => Some (rooms, [])
  | (socketId, ev) :: rest =>
      match handle rooms socketId ev with
      | None => None
      | Some res =>
          match run (r_rooms res) rest with
          | None => None
          | Some (rooms', out) => Some (rooms', r_out res ++ out)
          end
      end
  end.

(** The events that set the game of a room going: a join (line 213) and
    a new game (line 144). *)
Definition restarts (ev : ClientEvent) : Prop :=
  match ev with
  | JoinRoom _ | NewGame => True
  | _ => False
  end.

(** Every character of [s] is an ASCII one. *)
Definition ascii_text (s : string) : Prop :=
  Forall (λ c, (nat_of_ascii c < 128)%nat) (list_ascii_of_string s).

(** ** Example stores *)

(** A full board without a completed triple. *)
Definition drawn_board : list Cell :=
  [Some X; Some O; Some X; Some X; Some O; Some O; Some O; Some X; Some X].

(** A board on which [X] has completed the first row. *)
Definition won_board : list Cell :=
  [Some X; Some X; Some X; Some O; Some O; None; None; None; None].

(** After socket [a] created a room (the draws spell [ABCDEF]). *)
Definition store_created : list (string * Room) :=
  default [] (r_rooms <$> on_createRoom [] "a" [0; 1; 2; 3; 4; 5]%nat).

(** After socket [b] joined it. *)
Definition store_started : list (string * Room) :=
  r_rooms (on_joinRoom store_created "b" (join_payload "abcdef")).

(** After [a] played cell 0. *)
Definition store_played : list (string * Room) :=
  r_rooms (on_makeMove store_started "a" (move_payload 0)).

Definition room_started : Room :=
  {| code := "ABCDEF";
     players := ["a"; "b"];
     board := replicate 9 None;
     currentPlayer := X;
     gameActive := true;
     symbols := <["b" := O]> {["a" := X]} |}.

(** After [b] answered in cell 3. *)
Definition store_answered : list (string * Room) :=
  r_rooms (on_makeMove store_played "b" (move_payload 3)).

(** After [a] played cell 0 and [b] disconnected. *)
Definition store_abandoned : list (string * Room) :=
  r_rooms (on_disconnect store_played "b").

(** The events of a game that [X] wins on the first row, and the store
    after them. *)
Definition first_row_game : list (string * ClientEvent) :=
  [ ("a", CreateRoom [0; 1; 2; 3; 4; 5]%nat);
    ("b", JoinRoom (join_payload "ABCDEF"));
    ("a", MakeMove (move_payload 0));
    ("b", MakeMove (move_payload 3));
    ("a", MakeMove (move_payload 1));
    ("b", MakeMove (move_payload 4));
    ("a", MakeMove (move_payload 2)) ].

Definition store_won : list (string * Room) :=
  default [] (fst <$> run [] first_row_game).

Definition room_won : Room :=
  {| code := "ABCDEF";
     players := ["a"; "b"];
     board := won_board;
     currentPlayer := O;
     gameActive := false;
     symbols := <["b" := O]> {["a" := X]} |}.

(** ** The life of one room *)

(** The room [createRoom] builds (lines 67-75). *)
Definition fresh_room (c socketId : string) : Room :=
  {| code := c;
     players := [socketId];
     board := replicate 9 None;
     currentPlayer := X;
     gameActive := false;
     symbols := {[ socketId := X ]} |}.

(** What an event on [socketId] can do to a room that stays in the
    store: the socket joins it, plays in it, resets it, or leaves it
    with somebody remaining. *)
Inductive room_step (socketId : string) : Room → Room → Prop :=
| step_join room :
    (length (players room) < 2)%nat →
    socketId ∉ players room →
    room_step socketId room (joined room socketId)
| step_move room i :
    socketId ∈ players room →
    gameActive room = true →
    symbols room !! socketId = Some (currentPlayer room) →
    (i ≤ 8)%nat →
    board room !! i = Some None →
    room_step socketId room (moved room i)
| step_reset room :
    socketId ∈ players room →
    length (players room) = 2%nat →
    room_step socketId room (resetGame room)
| step_leave room :
    socketId ∈ players room →
    filter (λ id, id ≠ socketId) (players room) ≠ [] →
    room_step socketId room (left_by room socketId).

(** The number of cells of a board that hold [m]. *)
Definition marks (m : Marker) (bd : list Cell) : nat :=
  length (filter (λ cell, cell = Some m) bd).

(** What holds of every room of a store the server can reach: nine
    cells; one or two participants; an active game has two; the symbols
    are those of the participants; and [X] has as many marks as [O] when
    it is to play, one more when [O] is. *)
Definition room_ok (rm : Room) : Prop :=
  length (board rm) = 9%nat
  ∧ (1 ≤ length (players rm) ≤ 2)%nat
  ∧ (gameActive rm = true → length (players rm) = 2%nat)
  ∧ (∀ p, is_Some (symbols rm !! p) ↔ p ∈ players rm)
  ∧ marks X (board rm)
    = (marks O (board rm)
       + match currentPlayer rm with X => 0 | O => 1 end)%nat.

(** The room with its game stopped. *)
Definition stopped (room : Room) : Room :=
  {| code := code room;
     players := players room;
     board := board room;
     currentPlayer := currentPlayer room;
     gameActive := false;
     symbols := symbols room |}.

(** The number of occupied cells. *)
Definition occupied (bd : list Cell) : nat := (marks X bd + marks O bd)%nat.

(** The board with the two symbols exchanged. *)
Definition swap_cell (cell : Cell) : Cell := other_marker <$> cell.

Definition swap_board (bd : list Cell) : list Cell := swap_cell <$> bd.

(** ** Who a message goes to *)

(** An [error] event, however it is sent. *)
Definition is_error (a : Action) : Prop :=
  match a with
  | SocketEmit _ (EvError _) | IoToEmit _ (EvError _) => True
  | _ => False
  end.

(** The way the handlers report an error: the store is the one before,
    every [error] sent to a socket is sent to the requester and is the
    only message of a handler that returned, no [error] is sent to a
    channel, and a handler that threw sent nothing. *)
Definition errors_private (rooms : list (string * Room)) (socketId : string)
    (res : Result) : Prop :=
  (∀ c message, IoToEmit c (EvError message) ∉ r_out res)
  ∧ (∀ s message,
       SocketEmit s (EvError message) ∈ r_out res →
       s = socketId
       ∧ r_out res = [SocketEmit socketId (EvError message)]
       ∧ r_rooms res = rooms
       ∧ r_end res = Returned)
  ∧ (∀ e, r_end res = Threw e → r_out res = [] ∧ r_rooms res = rooms).

(** ** The candidates of the code generator *)

(** The codes the random source spells, six draws each, in order. *)
Fixpoint candidates_loop (fuel : nat) (draws : list nat) : list string :=
  match fuel with
  | 0%nat => []
  | S fuel' =>
      match build_code 6 "" draws with
      | None => []
      | Some (c, rest) => c :: candidates_loop fuel' rest
      end
  end.

Definition candidates (draws : list nat) : list string :=
  candidates_loop (length draws) draws.

(** ** Health check *)

(** The body of the answer to [GET /] (lines 363-369). *)
Record Health := mkHealth {
  status : string;
  game : string;
  rooms_size : nat
}.

(** [rooms.size] is the number of entries. *)
Definition health (rooms : Rooms) : Health :=
  {| status := "online";
     game := "Tic-Tac-Toe Multiplayer";
     rooms_size := length rooms |}.

(** * Properties *)

(** ** The board engine *)

Section BoardEngine.
Variable bd : list Cell.

Lemma scan_combos_cons_hit a b c rest m :
  completes bd (a, b, c) m →
  scan_combos bd ((a, b, c) :: rest) = Some m.
Proof.
  intros (Ha & Hb & Hc). cbn [scan_combos fst snd] in *.
  rewrite Ha, Hb, Hc, !bool_decide_eq_true_2 by done. done.
Qed.

Lemma scan_combos_cons_miss a b c rest :
  ¬ completed bd (a, b, c) →
  scan_combos bd ((a, b, c) :: rest) = scan_combos bd rest.
Proof.
  intros Hno. cbn [scan_combos].
  destruct (bd !! a) as [[m|]|] eqn:Ha; try done.
  destruct (bool_decide (Some (Some m) = bd !! b)) eqn:Hb; simpl; try done.
  destruct (bool_decide (Some (Some m) = bd !! c)) eqn:Hc; simpl; try done.
  apply bool_decide_eq_true_1 in Hb, Hc.
  destruct Hno. exists m. by repeat split.
Qed.

Lemma completed_dec t : Decision (completed bd t).
Proof.
  destruct t as [[a b] c].
  destruct (bd !! a) as [[m|]|] eqn:Ha.
  - destruct (decide (bd !! b = Some (Some m))) as [Hb|Hb];
      [destruct (decide (bd !! c = Some (Some m))) as [Hc|Hc]|].
    + left. by exists m.
    + right. intros (m' & Ha' & _ & Hc'); simpl in *. congruence.
    + right. intros (m' & Ha' & Hb' & _); simpl in *. congruence.
  - right. intros (m' & Ha' & _); simpl in *. congruence.
  - right. intros (m' & Ha' & _); simpl in *. congruence.
Qed.

Lemma completes_functional t m m' :
  completes bd t m → completes bd t m' → m = m'.
Proof. intros (H & _) (H' & _). congruence. Qed.

Lemma scan_combos_Some combos m :
  scan_combos bd combos = Some m ↔ ∃ t, first_completed bd combos t m.
Proof.
  induction combos as [|[[a b] c] rest IH].
  - split; [done|]. intros (t & pre & post & Heq & _).
    by destruct pre.
  - destruct (completed_dec (a, b, c)) as [[m0 Hm0]|Hno].
    + rewrite (scan_combos_cons_hit _ _ _ _ _ Hm0). split.
      * intros [= <-]. exists (a, b, c), [], rest.
        split; [done|]. split; [done|]. intros t' Ht'. by apply elem_of_nil in Ht'.
      * intros (t & pre & post & Heq & Hc & Hpre).
        destruct pre as [|t0 pre]; simpl in Heq; injection Heq as <- Hrest.
        -- f_equal. by eapply completes_functional.
        -- destruct (Hpre (a, b, c)); [left|by exists m0].
    + rewrite (scan_combos_cons_miss _ _ _ _ Hno), IH. split.
      * intros (t & pre & post & -> & Hc & Hpre).
        exists t, ((a, b, c) :: pre), post. split; [done|]. split; [done|].
        intros t' [->|Ht']%elem_of_cons; auto.
      * intros (t & pre & post & Heq & Hc & Hpre).
        destruct pre as [|t0 pre]; simpl in Heq; injection Heq as <- Hrest.
        -- destruct Hno. by exists m.
        -- exists t, pre, post. split; [done|]. split; [done|].
           intros t' Ht'. apply Hpre. by right.
Qed.

Lemma scan_combos_None combos :
  scan_combos bd combos = None ↔ ∀ t, t ∈ combos → ¬ completed bd t.
Proof.
  induction combos as [|[[a b] c] rest IH].
  - split; [|done]. intros _ t Ht. by apply elem_of_nil in Ht.
  - destruct (completed_dec (a, b, c)) as [[m0 Hm0]|Hno].
    + rewrite (scan_combos_cons_hit _ _ _ _ _ Hm0). split; [done|].
      intros Hall. destruct (Hall (a, b, c)); [left|by exists m0].
    + rewrite (scan_combos_cons_miss _ _ _ _ Hno), IH. split.
      * intros Hall t [->|Ht]%elem_of_cons; auto.
      * intros Hall t Ht. apply Hall. by right.
Qed.

Lemma every_not_null :
  forallb (λ cell : Cell, bool_decide (cell ≠ None)) bd = true ↔ full bd.
Proof.
  unfold full. rewrite forallb_forall. split.
  - intros H cell Hin. apply list_elem_of_In, H in Hin.
    by apply bool_decide_eq_true_1 in Hin.
  - intros H cell Hin. apply bool_decide_eq_true_2, H. by apply list_elem_of_In.
Qed.
End BoardEngine.

(** C1. The combinations are scanned rows first, then columns, then
    diagonals. On every board of nine cells, whatever their contents,
    [checkWinner] returns [Win m] exactly when [m] completes the first
    completed triple in that order; [Draw]
    exactly when no triple is completed and every cell is occupied; and
    [InProgress] exactly when no triple is completed and some cell is
    empty. Being a function, it returns one of the three on each board. *)
Theorem checkWinner_spec (bd : list Cell) :
  length bd = 9%nat →
  WINNING_COMBINATIONS = rows ++ columns ++ diagonals
  ∧ (∀ m, checkWinner bd = Win m
          ↔ ∃ t, first_completed bd WINNING_COMBINATIONS t m)
  ∧ (checkWinner bd = Draw
     ↔ (∀ t, t ∈ WINNING_COMBINATIONS → ¬ completed bd t) ∧ full bd)
  ∧ (checkWinner bd = InProgress
     ↔ (∀ t, t ∈ WINNING_COMBINATIONS → ¬ completed bd t) ∧ ¬ full bd).
Proof.
  intros _. split; [reflexivity|]. unfold checkWinner.
  pose proof (scan_combos_Some bd WINNING_COMBINATIONS) as HS.
  pose proof (scan_combos_None bd WINNING_COMBINATIONS) as HN.
  pose proof (every_not_null bd) as HF.
  destruct (scan_combos bd WINNING_COMBINATIONS) as [m0|] eqn:Hscan.
  - split; [|split].
    + intros m. rewrite <- HS. split; congruence.
    + split; [done|]. intros [Hno _]. apply HN in Hno. done.
    + split; [done|]. intros [Hno _]. apply HN in Hno. done.
  - assert (Hno : ∀ t, t ∈ WINNING_COMBINATIONS → ¬ completed bd t)
      by by apply HN.
    split; [|split].
    + intros m. rewrite <- HS. split; [|done].
      by destruct (forallb _ bd).
    + destruct (forallb _ bd); split; try done.
      * intros _. split; [done|]. by apply HF.
      * intros [_ Hfull]. by apply HF in Hfull.
    + destruct (forallb _ bd); split; try done.
      * intros [_ Hnf]. destruct Hnf. by apply HF.
      * intros _. split; [done|]. intros Hfull. by apply HF in Hfull.
Qed.

Lemma checkWinner_spec_witness :
  length won_board = 9%nat
  ∧ ∃ t, first_completed won_board WINNING_COMBINATIONS t X.
Proof.
  split; [reflexivity|].
  apply (proj1 (proj2 (checkWinner_spec won_board eq_refl)) X). reflexivity.
Defined.

(** The two boards of the scenarios: the first row of [X] wins, the full
    board [X O X / X O O / O X X] is a draw. *)
Example checkWinner_won_board : checkWinner won_board = Win X.
Proof. reflexivity. Qed.

Example checkWinner_drawn_board : checkWinner drawn_board = Draw.
Proof. reflexivity. Qed.

(** ** The store as a map *)

Section StoreOps.
Implicit Types (rooms : list (string * Room)) (k : string) (rm : Room).

Lemma rooms_has_true rooms k : rooms_has rooms k = true ↔ k ∈ rooms.*1.
Proof. unfold rooms_has. by rewrite bool_decide_eq_true. Qed.

Lemma rooms_has_false rooms k : rooms_has rooms k = false ↔ k ∉ rooms.*1.
Proof. unfold rooms_has. by rewrite bool_decide_eq_false. Qed.

Lemma rooms_get_set rooms k v k' :
  rooms_get (rooms_set rooms k v) k'
  = if decide (k = k') then Some v else rooms_get rooms k'.
Proof.
  induction rooms as [|[k0 r0] rest IH]; simpl.
  - by destruct (decide (k = k')).
  - destruct (decide (k0 = k)) as [->|Hne]; simpl.
    + by destruct (decide (k = k')).
    + destruct (decide (k0 = k')) as [->|Hne']; [|done].
      by rewrite decide_False by congruence.
Qed.

Lemma rooms_get_delete rooms k k' :
  rooms_get (rooms_delete rooms k) k'
  = if decide (k = k') then None else rooms_get rooms k'.
Proof.
  unfold rooms_delete.
  induction rooms as [|[k0 r0] rest IH]; simpl.
  - by destruct (decide (k = k')).
  - rewrite filter_cons; simpl. destruct (decide (k0 ≠ k)) as [Hne|Heq]; simpl.
    + destruct (decide (k0 = k')) as [->|Hne']; [|done].
      by rewrite decide_False by congruence.
    + apply dec_stable in Heq as ->. rewrite IH.
      by destruct (decide (k = k')).
Qed.

Lemma rooms_get_Some_elem_of rooms k rm :
  rooms_get rooms k = Some rm → (k, rm) ∈ rooms.
Proof.
  induction rooms as [|[k0 r0] rest IH]; simpl; [done|].
  destruct (decide (k0 = k)) as [->|Hne].
  - intros [= ->]. by left.
  - intros H. right. by apply IH.
Qed.

Lemma rooms_get_None rooms k : rooms_get rooms k = None ↔ k ∉ rooms.*1.
Proof.
  induction rooms as [|[k0 r0] rest IH]; simpl.
  - split; [|done]. intros _ H. by apply elem_of_nil in H.
  - destruct (decide (k0 = k)) as [->|Hne].
    + split; [done|]. intros H. destruct H. by left.
    + rewrite IH, not_elem_of_cons. split; [done|]. by intros [_ ?].
Qed.

Lemma rooms_get_elem_of rooms k rm :
  NoDup rooms.*1 → (k, rm) ∈ rooms → rooms_get rooms k = Some rm.
Proof.
  induction rooms as [|[k0 r0] rest IH]; simpl.
  - intros _ H. by apply elem_of_nil in H.
  - intros [Hnotin Hnd]%NoDup_cons [Heq|Hin]%elem_of_cons.
    + injection Heq as -> ->. by rewrite decide_True.
    + destruct (decide (k0 = k)) as [->|Hne]; [|by apply IH].
      destruct Hnotin. by apply (list_elem_of_fmap_2 fst) in Hin.
Qed.

Lemma rooms_set_fresh rooms k v :
  k ∉ rooms.*1 → rooms_set rooms k v = (rooms ++ [(k, v)])%list.
Proof.
  induction rooms as [|[k0 r0] rest IH]; simpl; [done|].
  intros [Hne Hnotin]%not_elem_of_cons.
  rewrite decide_False by done. by rewrite IH.
Qed.

Lemma rooms_set_at pre k rm post v :
  k ∉ pre.*1 →
  rooms_set (pre ++ (k, rm) :: post) k v = (pre ++ (k, v) :: post)%list.
Proof.
  induction pre as [|[k0 r0] pre IH]; simpl.
  - intros _. by rewrite decide_True.
  - intros [Hne Hnotin]%not_elem_of_cons.
    rewrite decide_False by done. by rewrite IH.
Qed.

Lemma rooms_delete_at pre k rm post :
  NoDup (pre ++ (k, rm) :: post).*1 →
  rooms_delete (pre ++ (k, rm) :: post) k = (pre ++ post)%list.
Proof.
  rewrite fmap_app, fmap_cons. simpl.
  intros (_ & Hpre & [Hpost _]%NoDup_cons)%NoDup_app.
  assert (Hkeep : ∀ l : list (string * Room),
             k ∉ l.*1 → filter (λ kv, kv.1 ≠ k) l = l).
  { induction l as [|[k0 r0] l IH]; [done|].
    rewrite fmap_cons. simpl. intros [Hne Hl]%not_elem_of_cons.
    rewrite filter_cons_True by (simpl; congruence). by rewrite IH. }
  unfold rooms_delete. rewrite filter_app, filter_cons_False by (simpl; auto).
  rewrite !Hkeep; [done|done|].
  intros Hin. apply (Hpre k); [done|by left].
Qed.

(** A room found in a store with distinct keys splits the store around
    its entry. *)
Lemma rooms_split rooms k rm :
  NoDup rooms.*1 → (k, rm) ∈ rooms →
  ∃ pre post, rooms = (pre ++ (k, rm) :: post)%list ∧ k ∉ pre.*1.
Proof.
  intros Hnd (pre & post & ->)%list_elem_of_split.
  exists pre, post. split; [done|].
  rewrite fmap_app, fmap_cons in Hnd. apply NoDup_app in Hnd as (_ & Hpre & _).
  intros Hin. apply (Hpre k Hin). by left.
Qed.

Lemma findPlayerRoom_Some rooms socketId k rm :
  findPlayerRoom rooms socketId = Some (k, rm) →
  (k, rm) ∈ rooms ∧ socketId ∈ players rm.
Proof.
  induction rooms as [|[k0 r0] rest IH]; simpl; [done|].
  destruct (bool_decide (socketId ∈ players r0)) eqn:Hin.
  - intros [= -> ->]. apply bool_decide_eq_true in Hin. split; [by left|done].
  - intros H. destruct (IH H). split; [by right|done].
Qed.

Lemma findPlayerRoom_None rooms socketId :
  findPlayerRoom rooms socketId = None ↔
  ∀ k rm, (k, rm) ∈ rooms → socketId ∉ players rm.
Proof.
  induction rooms as [|[k0 r0] rest IH]; simpl.
  - split; [|done]. intros _ k rm H. by apply elem_of_nil in H.
  - destruct (bool_decide (socketId ∈ players r0)) eqn:Hin.
    + apply bool_decide_eq_true in Hin. split; [done|].
      intros H. destruct (H k0 r0); [by left|done].
    + apply bool_decide_eq_false in Hin. rewrite IH. split.
      * intros H k rm [Heq|Hin']%elem_of_cons; [by injection Heq as -> ->|eauto].
      * intros H k rm Hin'. apply (H k rm). by right.
Qed.
End StoreOps.

(** ** Room codes *)

Section Strings.
Lemma append_assoc_char (s t : string) (ch : ascii) :
  (s +:+ String ch "") +:+ t = s +:+ String ch t.
Proof.
  induction s as [|c s IH]; [done|].
  change (String c ((s +:+ String ch "") +:+ t) = String c (s +:+ String ch t)).
  by f_equal.
Qed.

Lemma append_empty_r (s : string) : s +:+ "" = s.
Proof.
  induction s as [|c s IH]; [done|].
  change (String c (s +:+ "") = String c s). by f_equal.
Qed.

Lemma upper_ascii_idemp (c : ascii) : upper_ascii (upper_ascii c) = upper_ascii c.
Proof. by destruct c as [[] [] [] [] [] [] [] []]. Qed.

Lemma toUpperCase_idemp (s : string) :
  toUpperCase (toUpperCase s) = toUpperCase s.
Proof.
  induction s as [|c s IH]; simpl; [done|].
  by rewrite upper_ascii_idemp, IH.
Qed.

Lemma toUpperCase_length (s : string) :
  String.length (toUpperCase s) = String.length s.
Proof. induction s as [|c s IH]; simpl; [done|]. by rewrite IH. Qed.

Lemma upper_ascii_alphabet (c : ascii) : c ∈ alphabet → upper_ascii c = c.
Proof.
  unfold alphabet. simpl. rewrite !elem_of_cons.
  intros H. repeat (destruct H as [->|H]; [done|]). by apply elem_of_nil in H.
Qed.

(** A valid code is its own upper case, so a lookup by the code as it
    was generated reaches the key. *)
Lemma toUpperCase_valid_code (k : string) : valid_code k → toUpperCase k = k.
Proof.
  intros [_ Hall]. induction k as [|c k IH]; simpl in *; [done|].
  apply Forall_cons in Hall as [Hc Hk].
  by rewrite upper_ascii_alphabet, IH.
Qed.

Lemma charAt_chars (d : nat) :
  (d < 36)%nat → ∃ ch, charAt chars d = String ch "" ∧ ch ∈ alphabet.
Proof.
  intros Hd.
  do 36 (destruct d as [|d];
         [eexists; split; [reflexivity|compute_done]|]).
  lia.
Qed.
End Strings.

Section Generator.
Implicit Types (rooms : list (string * Room)) (draws : list nat).

Lemma build_code_spec n acc draws c rest :
  draws_ok draws →
  build_code n acc draws = Some (c, rest) →
  ∃ s, c = acc +:+ s ∧ String.length s = n
       ∧ Forall (λ ch, ch ∈ alphabet) (list_ascii_of_string s)
       ∧ draws_ok rest.
Proof.
  revert acc draws.
  induction n as [|n IH]; intros acc draws Hok; cbn [build_code].
  - intros [= <- <-]. exists "". by rewrite append_empty_r.
  - destruct draws as [|d ds]; [done|].
    apply Forall_cons in Hok as [Hd Hds]. intros Hb.
    destruct (IH _ _ Hds Hb) as (s & -> & Hlen & Hall & Hrest).
    destruct (charAt_chars d Hd) as (ch & -> & Hch).
    exists (String ch s). rewrite append_assoc_char. simpl.
    repeat split; auto.
Qed.

Lemma generate_loop_spec fuel rooms draws c rest :
  draws_ok draws →
  generate_loop fuel rooms draws = Some (c, rest) →
  valid_code c ∧ c ∉ rooms.*1.
Proof.
  revert draws.
  induction fuel as [|fuel IH]; intros draws Hok; cbn [generate_loop]; [done|].
  destruct (build_code 6 "" draws) as [[c0 rest0]|] eqn:Hb; [|done].
  destruct (build_code_spec _ _ _ _ _ Hok Hb) as (s & -> & Hlen & Hall & Hrest).
  change ("" +:+ s) with s. destruct (rooms_has rooms s) eqn:Hhas.
  - by apply IH.
  - intros [= <- <-]. split; [done|]. by apply rooms_has_false.
Qed.

(** The loop ends at the first candidate that is not a key: with a
    fresh first candidate it returns at once, and a colliding one is
    skipped. *)
Lemma generateRoomCode_returns rooms draws c rest :
  build_code 6 "" draws = Some (c, rest) → c ∉ rooms.*1 →
  generateRoomCode rooms draws = Some (c, rest).
Proof.
  intros Hb Hfresh. unfold generateRoomCode.
  destruct draws as [|d ds]; [done|]. cbn [length generate_loop].
  rewrite Hb. by apply rooms_has_false in Hfresh as ->.
Qed.

Lemma build_code_length n acc draws c rest :
  build_code n acc draws = Some (c, rest) →
  (length rest + n = length draws)%nat.
Proof.
  revert acc draws. induction n as [|n IH]; intros acc draws; simpl.
  - intros [= <- <-]. lia.
  - destruct draws as [|d ds]; [done|]. intros Hb%IH. simpl. lia.
Qed.

(** Any fuel that covers the draws gives the same result. *)
Lemma generate_loop_fuel f1 f2 rooms draws :
  (length draws ≤ f1)%nat → (length draws ≤ f2)%nat →
  generate_loop f1 rooms draws = generate_loop f2 rooms draws.
Proof.
  revert f2 draws. induction f1 as [|f1 IH]; intros f2 draws H1 H2.
  - destruct draws; [|simpl in H1; lia]. by destruct f2.
  - destruct f2 as [|f2].
    + destruct draws; [done|simpl in H2; lia].
    + cbn [generate_loop].
      destruct (build_code 6 "" draws) as [[c rest]|] eqn:Hb; [|done].
      apply build_code_length in Hb.
      destruct (rooms_has rooms c); [|done]. apply IH; lia.
Qed.

Lemma generateRoomCode_retries rooms draws c rest :
  build_code 6 "" draws = Some (c, rest) → c ∈ rooms.*1 →
  generateRoomCode rooms draws = generateRoomCode rooms rest.
Proof.
  intros Hb Hin. unfold generateRoomCode.
  pose proof (build_code_length _ _ _ _ _ Hb) as Hlen.
  destruct (length draws) as [|n] eqn:Hd; [lia|]. cbn [generate_loop].
  rewrite Hb. apply rooms_has_true in Hin as ->.
  apply generate_loop_fuel; lia.
Qed.
End Generator.

(** ** Store invariant *)

Section Invariant.
Implicit Types (rooms pre post : list (string * Room)) (k : string)
  (rm v : Room).

Lemma all_players_app pre post :
  all_players (pre ++ post) = all_players pre ++ all_players post.
Proof. apply bind_app. Qed.

Lemma all_players_cons k rm post :
  all_players ((k, rm) :: post) = players rm ++ all_players post.
Proof. done. Qed.

Lemma elem_of_all_players rooms socketId :
  socketId ∈ all_players rooms ↔
  ∃ k rm, (k, rm) ∈ rooms ∧ socketId ∈ players rm.
Proof.
  unfold all_players. rewrite list_elem_of_bind. split.
  - intros ([k rm] & Hin & Hkv). by exists k, rm.
  - intros (k & rm & Hin & Hkv). by exists (k, rm).
Qed.

Lemma findPlayerRoom_is_Some rooms socketId :
  is_Some (findPlayerRoom rooms socketId) ↔ socketId ∈ all_players rooms.
Proof.
  rewrite elem_of_all_players. split.
  - intros [[k rm] H%findPlayerRoom_Some]. by exists k, rm.
  - intros (k & rm & Hin & Hp).
    destruct (findPlayerRoom rooms socketId) eqn:Hf; [done|].
    rewrite findPlayerRoom_None in Hf. by destruct (Hf k rm).
Qed.

Lemma findPlayerRoom_None_all rooms socketId :
  findPlayerRoom rooms socketId = None ↔ socketId ∉ all_players rooms.
Proof.
  rewrite <- findPlayerRoom_is_Some, <- eq_None_not_Some. done.
Qed.

Lemma store_ok_nil : store_ok [].
Proof. repeat split; constructor. Qed.

(** Replacing a room by one with the same code whose participants are
    distinct and either were in the room already or are in no room. *)
Lemma store_ok_replace pre k rm post v :
  store_ok (pre ++ (k, rm) :: post) →
  code v = code rm →
  NoDup (players v) →
  (∀ x, x ∈ players v →
        x ∈ players rm ∨ x ∉ all_players (pre ++ (k, rm) :: post)) →
  store_ok (pre ++ (k, v) :: post).
Proof.
  intros (Hkeys & Hall & Hpl) Hcode Hnd Hnew. split; [|split].
  - by rewrite fmap_app, fmap_cons in *.
  - apply Forall_app in Hall as [Hpre [Hrm Hpost]%Forall_cons].
    apply Forall_app. split; [done|]. apply Forall_cons. split; [|done].
    simpl in *. by rewrite Hcode.
  - rewrite all_players_app, all_players_cons in *.
    apply NoDup_app in Hpl as (Hpre & Hdisj & (Hrm & Hdisj' & Hpost)%NoDup_app).
    assert (Hout : ∀ x, x ∈ players v →
               (x ∉ all_players pre) ∧ (x ∉ all_players post)).
    { intros x Hx. destruct (Hnew x Hx) as [Hold|Hfresh].
      - split.
        + intros Hin. apply (Hdisj x Hin). apply elem_of_app. by left.
        + by apply Hdisj'.
      - rewrite !elem_of_app in Hfresh. naive_solver. }
    apply NoDup_app. split; [done|]. split.
    + intros x Hin [Hx|Hx]%elem_of_app.
      * by destruct (Hout x Hx).
      * apply (Hdisj x Hin). apply elem_of_app. by right.
    + apply NoDup_app. split; [done|]. split; [|done].
      intros x Hx. by destruct (Hout x Hx).
Qed.

Lemma store_ok_remove pre k rm post :
  store_ok (pre ++ (k, rm) :: post) → store_ok (pre ++ post).
Proof.
  intros (Hkeys & Hall & Hpl). split; [|split].
  - rewrite fmap_app, fmap_cons in Hkeys. rewrite fmap_app.
    apply NoDup_app in Hkeys as (Hpre & Hdisj & [_ Hpost]%NoDup_cons).
    apply NoDup_app. split; [done|]. split; [|done].
    intros x Hin Hx. apply (Hdisj x Hin). by right.
  - apply Forall_app in Hall as [Hpre [_ Hpost]%Forall_cons].
    by apply Forall_app.
  - rewrite all_players_app, all_players_cons in Hpl.
    rewrite all_players_app.
    apply NoDup_app in Hpl as (Hpre & Hdisj & (_ & _ & Hpost)%NoDup_app).
    apply NoDup_app. split; [done|]. split; [|done].
    intros x Hin Hx. apply (Hdisj x Hin). apply elem_of_app. by right.
Qed.

Lemma store_ok_append rooms k v :
  store_ok rooms →
  k ∉ rooms.*1 → valid_code k → code v = k →
  NoDup (players v) →
  (∀ x, x ∈ players v → x ∉ all_players rooms) →
  store_ok (rooms ++ [(k, v)]).
Proof.
  intros (Hkeys & Hall & Hpl) Hfresh Hvalid Hcode Hnd Hnew. split; [|split].
  - rewrite fmap_app. apply NoDup_app. split; [done|]. split.
    + intros x Hin [->|Hx]%elem_of_cons; [done|]. by apply elem_of_nil in Hx.
    + apply NoDup_singleton.
  - apply Forall_app. split; [done|]. apply Forall_singleton. by split.
  - rewrite all_players_app, all_players_cons. unfold all_players at 2.
    simpl. rewrite app_nil_r. apply NoDup_app. split; [done|]. split; [|done].
    intros x Hin Hx. by apply (Hnew x Hx).
Qed.

Lemma store_ok_keys rooms : store_ok rooms → NoDup rooms.*1.
Proof. by intros (? & _). Qed.

Lemma store_ok_code rooms k rm :
  store_ok rooms → (k, rm) ∈ rooms → code rm = k ∧ valid_code k.
Proof.
  intros (_ & Hall & _) Hin. rewrite Forall_forall in Hall.
  by apply (Hall (k, rm)).
Qed.

Lemma store_ok_players rooms k rm :
  store_ok rooms → (k, rm) ∈ rooms → NoDup (players rm).
Proof.
  intros (_ & _ & Hpl) (pre & post & ->)%list_elem_of_split.
  rewrite all_players_app, all_players_cons in Hpl.
  by apply NoDup_app in Hpl as (_ & _ & (? & _)%NoDup_app).
Qed.
End Invariant.

(** ** The handlers keep the invariant *)

Section Preservation.
Implicit Types (rooms pre post : list (string * Room)) (k socketId : string)
  (rm v : Room).

(** Writing back a room found in the store replaces exactly its entry;
    deleting its key afterwards removes exactly that entry. *)
Lemma store_update rooms k rm :
  NoDup rooms.*1 → (k, rm) ∈ rooms →
  ∃ pre post,
    rooms = pre ++ (k, rm) :: post
    ∧ (∀ v, rooms_set rooms k v = pre ++ (k, v) :: post)
    ∧ (∀ v, rooms_delete (rooms_set rooms k v) k = pre ++ post).
Proof.
  intros Hnd Hin. destruct (rooms_split _ _ _ Hnd Hin) as (pre & post & -> & Hpre).
  exists pre, post. split; [done|].
  assert (Hset : ∀ v, rooms_set (pre ++ (k, rm) :: post) k v
                      = pre ++ (k, v) :: post)
    by (intros v; by apply rooms_set_at).
  split; [done|]. intros v. rewrite Hset. apply rooms_delete_at.
  by rewrite fmap_app, fmap_cons in *.
Qed.

Lemma on_createRoom_ok rooms socketId draws res :
  store_ok rooms → draws_ok draws →
  on_createRoom rooms socketId draws = Some res →
  store_ok (r_rooms res).
Proof.
  intros Hok Hdraws. unfold on_createRoom, createRoom.
  destruct (findPlayerRoom rooms socketId) as [[k rm]|] eqn:Hfind.
  - by intros [= <-].
  - destruct (generateRoomCode rooms draws) as [[c rest]|] eqn:Hgen; [|done].
    intros [= <-]. cbn [r_rooms].
    destruct (generate_loop_spec _ _ _ _ _ Hdraws Hgen) as [Hvalid Hfresh].
    rewrite rooms_set_fresh by done.
    apply store_ok_append; try done.
    + apply NoDup_singleton.
    + intros x ->%list_elem_of_singleton.
      by apply findPlayerRoom_None_all.
Qed.

Lemma on_joinRoom_ok rooms socketId data :
  store_ok rooms → store_ok (r_rooms (on_joinRoom rooms socketId data)).
Proof.
  intros Hok. unfold on_joinRoom.
  destruct (roomCode_toUpperCase data) as [[c|]|e]; try done.
  destruct (bool_decide (c = "") || bool_decide (String.length c ≠ 6%nat));
    [done|].
  unfold getRoom.
  destruct (rooms_get rooms (toUpperCase c)) as [room|] eqn:Hget; [|done].
  destruct (2 <=? length (players room))%nat; [done|].
  destruct (findPlayerRoom rooms socketId) eqn:Hfind; [done|].
  cbn [r_rooms].
  apply rooms_get_Some_elem_of in Hget.
  pose proof (store_ok_players _ _ _ Hok Hget) as Hnd.
  destruct (store_update _ _ _ (store_ok_keys _ Hok) Hget)
    as (pre & post & Heq & Hset & _).
  rewrite Hset.
  apply findPlayerRoom_None_all in Hfind.
  rewrite Heq in Hok, Hfind.
  eapply store_ok_replace; [done|done|..]; cbn [players].
  - apply NoDup_app. split; [done|]. split; [|apply NoDup_singleton].
    intros x Hx ->%list_elem_of_singleton.
    apply Hfind, elem_of_all_players. exists (toUpperCase c), room.
    split; [|done]. apply elem_of_app. right. by left.
  - intros x [Hx| ->%list_elem_of_singleton]%elem_of_app; [by left|by right].
Qed.

Lemma on_makeMove_ok rooms socketId data :
  store_ok rooms → store_ok (r_rooms (on_makeMove rooms socketId data)).
Proof.
  intros Hok. unfold on_makeMove.
  destruct (findPlayerRoom rooms socketId) as [[k room]|] eqn:Hfind; [|done].
  destruct (negb (gameActive room)); [done|].
  destruct (js_get data "cellIndex") as [cellIndex|e]; [|done].
  destruct (symbols room !! socketId) as [sym|]; [|done].
  destruct (bool_decide (sym ≠ currentPlayer room)); [done|].
  destruct (unprintable cellIndex); [done|].
  destruct (array_index cellIndex) as [i|]; [|done].
  destruct ((8 <? i)%nat || bool_decide (board room !! i ≠ Some None)); [done|].
  apply findPlayerRoom_Some in Hfind as [Hin _].
  pose proof (store_ok_players _ _ _ Hok Hin) as Hnd.
  destruct (store_update _ _ _ (store_ok_keys _ Hok) Hin)
    as (pre & post & Heq & Hset & _).
  rewrite Heq in Hok.
  destruct (checkWinner _); cbn [r_rooms]; rewrite Hset;
    (eapply store_ok_replace; [done|done|..]; cbn [players];
     [done|by left]).
Qed.

Lemma on_newGame_ok rooms socketId :
  store_ok rooms → store_ok (r_rooms (on_newGame rooms socketId)).
Proof.
  intros Hok. unfold on_newGame.
  destruct (findPlayerRoom rooms socketId) as [[k room]|] eqn:Hfind; [|done].
  destruct (bool_decide (length (players room) ≠ 2%nat)); [done|].
  apply findPlayerRoom_Some in Hfind as [Hin _].
  pose proof (store_ok_players _ _ _ Hok Hin) as Hnd.
  destruct (store_update _ _ _ (store_ok_keys _ Hok) Hin)
    as (pre & post & Heq & Hset & _).
  rewrite Heq in Hok. cbn [r_rooms]. rewrite Hset.
  eapply store_ok_replace; [done|done|..]; cbn [resetGame players];
    [done|by left].
Qed.

Lemma on_disconnect_ok rooms socketId :
  store_ok rooms → store_ok (r_rooms (on_disconnect rooms socketId)).
Proof.
  intros Hok. unfold on_disconnect.
  destruct (findPlayerRoom rooms socketId) as [[k room]|] eqn:Hfind; [|done].
  apply findPlayerRoom_Some in Hfind as [Hin _].
  destruct (store_ok_code _ _ _ Hok Hin) as [Hcode _].
  pose proof (store_ok_players _ _ _ Hok Hin) as Hnd.
  destruct (store_update _ _ _ (store_ok_keys _ Hok) Hin)
    as (pre & post & Heq & Hset & Hdel).
  rewrite Heq in Hok. cbn [players code]. rewrite Hcode.
  destruct (bool_decide _); cbn [r_rooms].
  - rewrite Hdel. by eapply store_ok_remove.
  - rewrite Hset. eapply store_ok_replace; [done|done|..]; cbn [players].
    + by apply NoDup_filter.
    + intros x [_ Hx]%list_elem_of_filter. by left.
Qed.

Lemma handle_ok rooms socketId ev res :
  store_ok rooms → event_ok ev → handle rooms socketId ev = Some res →
  store_ok (r_rooms res).
Proof.
  intros Hok Hev. destruct ev; simpl.
  - by apply on_createRoom_ok.
  - intros [= <-]. by apply on_joinRoom_ok.
  - intros [= <-]. by apply on_makeMove_ok.
  - intros [= <-]. by apply on_newGame_ok.
  - intros [= <-]. by apply on_disconnect_ok.
Qed.

Lemma reachable_ok rooms : reachable rooms → store_ok rooms.
Proof.
  induction 1 as [|rooms socketId ev res _ IH Hev Hh].
  - apply store_ok_nil.
  - by eapply handle_ok.
Qed.
End Preservation.

(** ** Moves *)

Section Moves.
Implicit Types (rooms : list (string * Room)) (k socketId : string)
  (room : Room) (data : JsVal).

Lemma move_payload_index z :
  js_get (move_payload z) "cellIndex" = Ok (JNum z).
Proof. done. Qed.

(** A value that addresses a cell converts to a primitive. *)
Lemma array_index_printable (v : JsVal) (i : nat) :
  array_index v = Some i → unprintable v = false.
Proof.
  revert v i. fix IH 1. intros [| | | | |fields|[|x [|y items]]] i; try done.
  cbn [array_index unprintable existsb]. intros Hx.
  by rewrite (IH x i Hx).
Qed.

(** What an accepted move does to the store and what it sends. *)
Lemma on_makeMove_accepted rooms socketId data k room i :
  move_accepted rooms socketId data k room i →
  r_rooms (on_makeMove rooms socketId data) = rooms_set rooms k (moved room i)
  ∧ r_end (on_makeMove rooms socketId data) = Returned
  ∧ ∃ ev, r_out (on_makeMove rooms socketId data) = [IoToEmit (code room) ev]
          ∧ ∀ message, ev ≠ EvError message.
Proof.
  intros (Hfind & Hact & Hsym & (v & Hget & Hidx) & Hle & Hcell).
  unfold on_makeMove, moved.
  rewrite Hfind, Hact, Hget, Hsym, (array_index_printable _ _ Hidx), Hidx, Hcell.
  cbn [negb].
  rewrite bool_decide_eq_false_2 by (intros H; by apply H).
  rewrite (proj2 (Nat.ltb_ge 8 i)) by lia.
  rewrite bool_decide_eq_false_2 by (intros H; by apply H). cbn [orb].
  destruct (checkWinner _); cbn [r_rooms r_end r_out];
    (split; [done|split; [done|]]); eexists; (split; [done|done]).
Qed.

(** Every move is either accepted or answered by one of the four
    errors with the store untouched, or throws on an unreadable
    payload. *)
Lemma on_makeMove_cases rooms socketId data :
  (∃ k room i, move_accepted rooms socketId data k room i)
  ∨ (∃ message, on_makeMove rooms socketId data
                = reply_error rooms socketId message
                ∧ message ∈ [NotInSession; GameNotActive; NotYourTurn;
                             InvalidMove])
  ∨ on_makeMove rooms socketId data = mkResult rooms [] (Threw TypeError).
Proof.
  unfold on_makeMove, move_accepted.
  destruct (findPlayerRoom rooms socketId) as [[k room]|] eqn:Hfind;
    [|right; left; eexists; split; [done|set_solver]].
  destruct (gameActive room) eqn:Hact; cbn [negb];
    [|right; left; eexists; split; [done|set_solver]].
  destruct (js_get data "cellIndex") as [v|[]] eqn:Hget; [|by right; right].
  destruct (symbols room !! socketId) as [sym|] eqn:Hsym;
    [|right; left; eexists; split; [done|set_solver]].
  destruct (bool_decide (sym ≠ currentPlayer room)) eqn:Hturn;
    [right; left; eexists; split; [done|set_solver]|].
  apply bool_decide_eq_false in Hturn. apply dec_stable in Hturn as ->.
  destruct (unprintable v); [by right; right|].
  destruct (array_index v) as [i|] eqn:Hidx;
    [|right; left; eexists; split; [done|set_solver]].
  destruct (8 <? i)%nat eqn:Hle; cbn [orb];
    [right; left; eexists; split; [done|set_solver]|].
  destruct (bool_decide (board room !! i ≠ Some None)) eqn:Hcell;
    [right; left; eexists; split; [done|set_solver]|].
  apply bool_decide_eq_false in Hcell. apply dec_stable in Hcell.
  apply Nat.ltb_ge in Hle.
  left. exists k, room, i. repeat split; eauto.
Qed.
End Moves.

(** ** The example stores are reachable *)

Lemma store_started_eq : store_started = [("ABCDEF", room_started)].
Proof. reflexivity. Qed.

Lemma store_created_reachable : reachable store_created.
Proof.
  apply (reach_step [] "a" (CreateRoom [0; 1; 2; 3; 4; 5]%nat)
           (mkResult store_created
              [SocketJoin "a" "ABCDEF";
               SocketEmit "a" (EvRoomCreated "ABCDEF" X)] Returned)).
  - apply reach_init.
  - unfold event_ok, draws_ok. repeat constructor.
  - reflexivity.
Qed.

Lemma store_started_reachable : reachable store_started.
Proof.
  apply (reach_step store_created "b" (JoinRoom (join_payload "abcdef"))
           (on_joinRoom store_created "b" (join_payload "abcdef"))).
  - apply store_created_reachable.
  - exact I.
  - reflexivity.
Qed.

Lemma store_played_reachable : reachable store_played.
Proof.
  apply (reach_step store_started "a" (MakeMove (move_payload 0))
           (on_makeMove store_started "a" (move_payload 0))).
  - apply store_started_reachable.
  - exact I.
  - reflexivity.
Qed.

Lemma run_reachable (rooms rooms' : list (string * Room)) evs out :
  reachable rooms →
  Forall (λ e, event_ok e.2) evs →
  run rooms evs = Some (rooms', out) →
  reachable rooms'.
Proof.
  revert rooms out. induction evs as [|[socketId ev] evs IH];
    intros rooms out Hreach Hok; cbn [run].
  - by intros [= <- _].
  - apply Forall_cons in Hok as [Hev Hevs].
    destruct (handle rooms socketId ev) as [res|] eqn:Hh; [|done].
    destruct (run (r_rooms res) evs) as [[rooms1 out1]|] eqn:Hrun; [|done].
    intros [= <- _]. eapply IH; [|done|done]. by eapply reach_step.
Qed.

(** The scenario [a] creates, [b] joins, then the moves 0, 3, 1, 4, 2 in
    turn: the last message is the end of the game, won by [X] on the
    board [X X X / O O _ / _ _ _], and the game is no longer active. *)
Example scenario_first_row :
  (λ r, ((λ rm, (board rm, gameActive rm)) <$> rooms_get r.1 "ABCDEF",
         last r.2))
    <$> run []
          [ ("a", CreateRoom [0; 1; 2; 3; 4; 5]%nat);
            ("b", JoinRoom (join_payload "ABCDEF"));
            ("a", MakeMove (move_payload 0));
            ("b", MakeMove (move_payload 3));
            ("a", MakeMove (move_payload 1));
            ("b", MakeMove (move_payload 4));
            ("a", MakeMove (move_payload 2)) ]
  = Some (Some (won_board, false),
          Some (IoToEmit "ABCDEF" (EvGameEnd won_board (Win X) "X ha vinto!"))).
Proof. reflexivity. Qed.

(** The cell can be named by a number, by its numeral, or by an array
    that holds one of these. An object with a field [toString] makes
    line 259 throw, once the guards before it have passed. *)
Example cell_named_by_array :
  on_makeMove store_started "a" (JObj [("cellIndex", JArr [JStr "3"])])
  = mkResult [("ABCDEF", moved room_started 3)]
      [IoToEmit "ABCDEF"
         (EvMoveMade (board (moved room_started 3)) O (JArr [JStr "3"]) X)]
      Returned.
Proof. reflexivity. Qed.

Example cell_unprintable :
  on_makeMove store_started "a"
    (JObj [("cellIndex", JArr [JNum 3; JObj [("toString", JNull)]])])
  = mkResult store_started [] (Threw TypeError)
  ∧ on_makeMove store_started "b"
      (JObj [("cellIndex", JArr [JNum 3; JObj [("toString", JNull)]])])
    = mkResult store_started [SocketEmit "b" (EvError NotYourTurn)] Returned.
Proof. split; reflexivity. Qed.

(** ** Rejected moves *)

(** C2. A move request with payload [{cellIndex: z}] is answered, the
    guards being tried in this order, with [NotInSession] when the
    requester is in no room, [GameNotActive] when its room is not
    active, [NotYourTurn] when its symbol is not the current player, and
    [InvalidMove] when [z] is outside [0, 8] or the cell holds a symbol.
    In each case the store is returned as it was and the only message
    is the error, sent to the requester alone. *)
Theorem makeMove_rejections (rooms : list (string * Room))
    (socketId : string) (z : Z) :
  (findPlayerRoom rooms socketId = None →
   on_makeMove rooms socketId (move_payload z)
   = mkResult rooms [SocketEmit socketId (EvError NotInSession)] Returned)
  ∧ (∀ k room,
       findPlayerRoom rooms socketId = Some (k, room) →
       (gameActive room = false →
        on_makeMove rooms socketId (move_payload z)
        = mkResult rooms [SocketEmit socketId (EvError GameNotActive)] Returned)
       ∧ (gameActive room = true →
          symbols room !! socketId ≠ Some (currentPlayer room) →
          on_makeMove rooms socketId (move_payload z)
          = mkResult rooms [SocketEmit socketId (EvError NotYourTurn)] Returned)
       ∧ (gameActive room = true →
          symbols room !! socketId = Some (currentPlayer room) →
          (z < 0 ∨ 8 < z
           ∨ ∃ m, board room !! Z.to_nat z = Some (Some m))%Z →
          on_makeMove rooms socketId (move_payload z)
          = mkResult rooms [SocketEmit socketId (EvError InvalidMove)] Returned)).
Proof.
  split.
  - intros Hfind. unfold on_makeMove. by rewrite Hfind.
  - intros k room Hfind. unfold on_makeMove. rewrite Hfind.
    split; [|split].
    + by intros ->.
    + intros -> Hsym. cbn [negb]. rewrite move_payload_index.
      destruct (symbols room !! socketId) as [sym|]; [|done].
      rewrite bool_decide_eq_true_2; [done|]. congruence.
    + intros -> -> Hbad. cbn [negb]. rewrite move_payload_index.
      rewrite bool_decide_eq_false_2 by (intros H; by apply H).
      cbn [unprintable array_index].
      destruct (0 <=? z)%Z eqn:Hz; [|done].
      apply Z.leb_le in Hz.
      destruct (8 <? Z.to_nat z)%nat eqn:H8; [done|].
      apply Nat.ltb_ge in H8.
      destruct Hbad as [Hneg|[Hbig|[m Hm]]]; [lia|lia|].
      rewrite Hm. by rewrite bool_decide_eq_true_2.
Qed.

Lemma makeMove_rejections_witness :
  on_makeMove store_played "b" (move_payload 0)
  = mkResult store_played [SocketEmit "b" (EvError InvalidMove)] Returned.
Proof.
  refine (proj2 (proj2 (proj2 (makeMove_rejections store_played "b" 0)
                          "ABCDEF" (moved room_started 0) _)) _ _ _).
  - reflexivity.
  - reflexivity.
  - reflexivity.
  - right. right. exists X. reflexivity.
Defined.

(** ** Accepted moves *)

Section AcceptedMoves.
Implicit Types (rooms : list (string * Room)) (k socketId : string)
  (room : Room) (data : JsVal).

Lemma generate_loop_fresh fuel rooms draws c rest :
  generate_loop fuel rooms draws = Some (c, rest) → c ∉ rooms.*1.
Proof.
  revert draws.
  induction fuel as [|fuel IH]; intros draws; cbn [generate_loop]; [done|].
  destruct (build_code 6 "" draws) as [[c0 rest0]|]; [|done].
  destruct (rooms_has rooms c0) eqn:Hhas; [by apply IH|].
  intros [= <- <-]. by apply rooms_has_false.
Qed.

Lemma found_rooms_get rooms socketId k room :
  store_ok rooms → findPlayerRoom rooms socketId = Some (k, room) →
  rooms_get rooms k = Some room ∧ code room = k ∧ socketId ∈ players room.
Proof.
  intros Hok [Hin Hp]%findPlayerRoom_Some.
  destruct (store_ok_code _ _ _ Hok Hin) as [Hcode _].
  split; [|done]. by apply rooms_get_elem_of; [apply store_ok_keys|].
Qed.

Lemma other_marker_ne m : other_marker m ≠ m.
Proof. by destruct m. Qed.

Lemma other_marker_involutive m : other_marker (other_marker m) = m.
Proof. by destruct m. Qed.

(** The room after an accepted move. *)
Lemma accepted_move_room rooms socketId data k room i :
  move_accepted rooms socketId data k room i →
  rooms_get (r_rooms (on_makeMove rooms socketId data)) k
  = Some (moved room i).
Proof.
  intros Hacc. destruct (on_makeMove_accepted _ _ _ _ _ _ Hacc) as [-> _].
  rewrite rooms_get_set. by rewrite decide_True.
Qed.

Lemma moved_cell room i :
  board room !! i = Some None →
  board (moved room i) !! i = Some (Some (currentPlayer room))
  ∧ ∀ j, j ≠ i → board (moved room i) !! j = board room !! j.
Proof.
  intros Hcell. cbn [moved board]. split.
  - apply list_lookup_insert_eq. by eapply lookup_lt_Some.
  - intros j Hj. by apply list_lookup_insert_ne.
Qed.

(** Apart from a reset, an event leaves the board and the turn of a
    room that stays in the store as they were, unless it is an
    accepted move in that room. *)
Lemma handle_frame rooms socketId ev res k room room' :
  store_ok rooms →
  ev ≠ NewGame →
  handle rooms socketId ev = Some res →
  rooms_get rooms k = Some room →
  rooms_get (r_rooms res) k = Some room' →
  (∃ data i, ev = MakeMove data
             ∧ move_accepted rooms socketId data k room i
             ∧ room' = moved room i)
  ∨ (board room' = board room ∧ currentPlayer room' = currentPlayer room).
Proof.
  intros Hok Hev Hh Hget Hget'. destruct ev as [draws|data|data| |]; simpl in Hh.
  - (* createRoom *)
    right. unfold on_createRoom, createRoom in Hh.
    destruct (findPlayerRoom rooms socketId);
      [injection Hh as <-; cbn [reply_error r_rooms] in Hget'; split; congruence|].
    destruct (generateRoomCode rooms draws) as [[c rest]|] eqn:Hgen; [|done].
    injection Hh as <-. cbn [r_rooms] in Hget'.
    apply generate_loop_fresh in Hgen.
    rewrite rooms_get_set in Hget'. destruct (decide (c = k)) as [->|Hne].
    + apply rooms_get_None in Hgen. congruence.
    + split; congruence.
  - (* joinRoom *)
    right. injection Hh as <-. revert Hget'. unfold on_joinRoom.
    destruct (roomCode_toUpperCase data) as [[c|]|e];
      try (cbn [reply_error r_rooms]; intros; split; congruence).
    destruct (bool_decide (c = "") || bool_decide (String.length c ≠ 6%nat));
      [cbn [reply_error r_rooms]; intros; split; congruence|].
    unfold getRoom.
    destruct (rooms_get rooms (toUpperCase c)) as [room0|] eqn:Hget0;
      [|cbn [reply_error r_rooms]; intros; split; congruence].
    destruct (2 <=? length (players room0))%nat;
      [cbn [reply_error r_rooms]; intros; split; congruence|].
    destruct (findPlayerRoom rooms socketId);
      [cbn [reply_error r_rooms]; intros; split; congruence|].
    cbn [r_rooms]. rewrite rooms_get_set.
    destruct (decide (toUpperCase c = k)) as [Heq|Hne].
    + rewrite Heq in Hget0. intros [= <-]. cbn [board currentPlayer].
      split; congruence.
    + intros; split; congruence.
  - (* makeMove *)
    injection Hh as <-.
    destruct (on_makeMove_cases rooms socketId data)
      as [(k0 & room0 & i & Hacc)|[(message & Heq & _)|Heq]].
    + destruct (on_makeMove_accepted _ _ _ _ _ _ Hacc) as (Hrooms & _).
      rewrite Hrooms, rooms_get_set in Hget'.
      destruct Hacc as (Hfind & Hrest).
      destruct (found_rooms_get _ _ _ _ Hok Hfind) as (Hget0 & _).
      destruct (decide (k0 = k)) as [->|Hne].
      * left. exists data, i. injection Hget' as <-.
        assert (room0 = room) as -> by congruence. done.
      * right. split; congruence.
    + right. rewrite Heq in Hget'. cbn [reply_error r_rooms] in Hget'.
      split; congruence.
    + right. rewrite Heq in Hget'. cbn [r_rooms] in Hget'. split; congruence.
  - done.
  - (* disconnect *)
    right. injection Hh as <-. revert Hget'. unfold on_disconnect.
    destruct (findPlayerRoom rooms socketId) as [[k0 room0]|] eqn:Hfind;
      [|cbn [r_rooms]; intros; split; congruence].
    destruct (found_rooms_get _ _ _ _ Hok Hfind) as (Hget0 & Hcode & _).
    cbn [players code]. rewrite Hcode.
    destruct (bool_decide _); cbn [r_rooms].
    + rewrite rooms_get_delete, rooms_get_set.
      destruct (decide (k0 = k)); [done|]. intros; split; congruence.
    + rewrite rooms_get_set.
      destruct (decide (k0 = k)) as [->|Hne].
      * intros [= <-]. cbn [board currentPlayer]. split; congruence.
      * intros; split; congruence.
Qed.

Lemma play_spec k rooms movers rooms' :
  play k rooms movers rooms' →
  store_ok rooms →
  ∀ room,
    rooms_get rooms k = Some room →
    store_ok rooms'
    ∧ (∀ m, head movers = Some m → m = currentPlayer room)
    ∧ alternating movers
    ∧ ∃ room', rooms_get rooms' k = Some room'
               ∧ currentPlayer room'
                 = from_option other_marker (currentPlayer room) (last movers).
Proof.
  induction 1 as [rooms
                 |rooms socketId data room0 i movers rooms' Hacc Hplay IH
                 |rooms socketId ev res movers rooms' Hev Hevok Hnot Hh Hk Hplay IH];
    intros Hok room Hget.
  - split; [done|]. split; [done|]. split; [done|]. by exists room.
  - pose proof (on_makeMove_ok rooms socketId data Hok) as Hok1.
    pose proof (accepted_move_room _ _ _ _ _ _ Hacc) as Hroom1.
    destruct (IH Hok1 _ Hroom1) as (Hok' & Hhead & Halt & room' & Hget' & Hturn).
    destruct Hacc as (Hfind & _).
    destruct (found_rooms_get _ _ _ _ Hok Hfind) as (Hget0 & _).
    assert (room0 = room) as -> by congruence.
    split; [done|]. split; [by intros m [= <-]|]. split.
    + destruct movers as [|m1 rest]; [done|]. split; [|done].
      by rewrite (Hhead m1 eq_refl).
    + exists room'. split; [done|]. rewrite Hturn.
      destruct movers as [|m1 rest]; [done|]. rewrite last_cons_cons.
      destruct (last (m1 :: rest)) eqn:Hl; [done|]. by apply last_None in Hl.
  - destruct Hk as [room1 Hget1].
    pose proof (handle_ok _ _ _ _ Hok Hevok Hh) as Hok1.
    destruct (IH Hok1 _ Hget1) as (Hok' & Hhead & Halt & room' & Hget' & Hturn).
    destruct (handle_frame _ _ _ _ _ _ _ Hok Hev Hh Hget Hget1)
      as [(data & i & -> & Hacc & _)|[_ Hsame]].
    { by destruct (Hnot data room i). }
    split; [done|]. split; [|split; [done|]].
    + intros m Hm. rewrite <- Hsame. by apply Hhead.
    + exists room'. split; [done|]. by rewrite Hturn, Hsame.
Qed.
End AcceptedMoves.

(** C3. An accepted move writes the requester's symbol into the chosen
    cell, which was empty, leaves the other cells alone, and hands the
    turn to the other symbol, so that the turn after the move is the
    symbol that did not move. Hence along any run without reset during
    which the room stays in the store -- accepted moves in the room,
    with rejected moves and events of other rooms and sockets in
    between -- the symbols that move in the room alternate, the first is
    the turn at the start, and the turn at the end is the other symbol
    than the last mover's (the turn at the start when nobody moved). And
    whatever event other than [newGame] is handled, a cell that holds a
    symbol in a room before holds the same symbol after, as long as the
    room is in the store. *)
Theorem accepted_move_effect :
  (∀ (rooms : list (string * Room)) socketId data k room i,
     store_ok rooms →
     move_accepted rooms socketId data k room i →
     ∃ m room',
       symbols room !! socketId = Some m
       ∧ rooms_get rooms k = Some room
       ∧ rooms_get (r_rooms (on_makeMove rooms socketId data)) k = Some room'
       ∧ board room !! i = Some None
       ∧ board room' !! i = Some (Some m)
       ∧ (∀ j, j ≠ i → board room' !! j = board room !! j)
       ∧ currentPlayer room = m
       ∧ currentPlayer room' = other_marker m
       ∧ currentPlayer room' ≠ m)
  ∧ (∀ k (rooms : list (string * Room)) room movers rooms',
       store_ok rooms →
       rooms_get rooms k = Some room →
       play k rooms movers rooms' →
       alternating movers
       ∧ (∀ m, head movers = Some m → m = currentPlayer room)
       ∧ ∃ room', rooms_get rooms' k = Some room'
                  ∧ currentPlayer room'
                    = from_option other_marker (currentPlayer room)
                        (last movers))
  ∧ (∀ (rooms : list (string * Room)) socketId ev res k room room' j m,
       store_ok rooms →
       ev ≠ NewGame →
       handle rooms socketId ev = Some res →
       rooms_get rooms k = Some room →
       rooms_get (r_rooms res) k = Some room' →
       board room !! j = Some (Some m) →
       board room' !! j = Some (Some m)).
Proof.
  split; [|split].
  - intros rooms socketId data k room i Hok Hacc.
    pose proof (accepted_move_room _ _ _ _ _ _ Hacc) as Hroom'.
    destruct Hacc as (Hfind & Hact & Hsym & Hidx & Hle & Hcell).
    destruct (found_rooms_get _ _ _ _ Hok Hfind) as (Hget & _).
    destruct (moved_cell room i Hcell) as [Hi Hj].
    exists (currentPlayer room), (moved room i).
    repeat split; try done. apply other_marker_ne.
  - intros k rooms room movers rooms' Hok Hget Hplay.
    by destruct (play_spec _ _ _ _ Hplay Hok _ Hget) as (_ & ? & ? & ?).
  - intros rooms socketId ev res k room room' j m Hok Hev Hh Hget Hget' Hcell.
    destruct (handle_frame _ _ _ _ _ _ _ Hok Hev Hh Hget Hget')
      as [(data & i & _ & Hacc & ->)|[Hbd _]].
    + destruct Hacc as (_ & _ & _ & _ & _ & Hempty).
      destruct (moved_cell room i Hempty) as [_ Hj].
      rewrite Hj; [done|]. intros ->. congruence.
    + by rewrite Hbd.
Qed.

Lemma move_accepted_first :
  move_accepted store_started "a" (move_payload 0) "ABCDEF" room_started 0.
Proof.
  split; [reflexivity|]. split; [reflexivity|]. split; [reflexivity|].
  split; [exists (JNum 0); split; reflexivity|].
  split; [lia|reflexivity].
Qed.

Lemma play_two_moves : play "ABCDEF" store_started [X; O] store_answered.
Proof.
  apply (play_move "ABCDEF" store_started "a" (move_payload 0)
           room_started 0 [O] store_answered move_accepted_first).
  apply (play_move "ABCDEF" store_played "b" (move_payload 3)
           (moved room_started 0) 3 [] store_answered).
  - split; [reflexivity|]. split; [reflexivity|]. split; [reflexivity|].
    split; [exists (JNum 3); split; reflexivity|].
    split; [lia|reflexivity].
  - apply play_done.
Qed.

Lemma accepted_move_effect_witness :
  (∃ m room',
     symbols room_started !! "a" = Some m
     ∧ rooms_get store_started "ABCDEF" = Some room_started
     ∧ rooms_get store_played "ABCDEF" = Some room'
     ∧ board room_started !! 0%nat = Some None
     ∧ board room' !! 0%nat = Some (Some m)
     ∧ (∀ j, j ≠ 0%nat → board room' !! j = board room_started !! j)
     ∧ currentPlayer room_started = m
     ∧ currentPlayer room' = other_marker m
     ∧ currentPlayer room' ≠ m)
  ∧ (alternating [X; O]
     ∧ (∀ m, head [X; O] = Some m → m = currentPlayer room_started)
     ∧ ∃ room', rooms_get store_answered "ABCDEF" = Some room'
                ∧ currentPlayer room'
                  = from_option other_marker (currentPlayer room_started)
                      (last [X; O])).
Proof.
  split.
  - apply (proj1 accepted_move_effect store_started "a" (move_payload 0)
             "ABCDEF" room_started 0%nat).
    + compute_done.
    + split; [reflexivity|]. split; [reflexivity|]. split; [reflexivity|].
      split; [exists (JNum 0); split; reflexivity|].
      split; [lia|reflexivity].
  - apply (proj1 (proj2 accepted_move_effect) "ABCDEF" store_started
             room_started [X; O] store_answered).
    + compute_done.
    + reflexivity.
    + apply play_two_moves.
Defined.

(** ** Joining and leaving *)

Section JoinLeave.
Implicit Types (rooms : list (string * Room)) (k socketId : string)
  (room : Room) (data : JsVal).

Lemma findPlayerRoom_unique rooms socketId k room :
  NoDup (all_players rooms) →
  (k, room) ∈ rooms → socketId ∈ players room →
  findPlayerRoom rooms socketId = Some (k, room).
Proof.
  induction rooms as [|[k0 r0] rest IH]; intros Hnd Hin Hp.
  - by apply elem_of_nil in Hin.
  - rewrite all_players_cons in Hnd.
    apply NoDup_app in Hnd as (_ & Hdisj & Hrest). cbn [findPlayerRoom].
    apply elem_of_cons in Hin as [Heq|Hin].
    + injection Heq as <- <-. by rewrite bool_decide_eq_true_2.
    + destruct (decide (socketId ∈ players r0)) as [Hp0|Hp0].
      * destruct (Hdisj _ Hp0). apply elem_of_all_players. eauto.
      * rewrite bool_decide_eq_false_2 by done. by apply IH.
Qed.

Lemma on_joinRoom_success rooms socketId s room :
  String.length s = 6%nat →
  rooms_get rooms (toUpperCase s) = Some room →
  (length (players room) < 2)%nat →
  findPlayerRoom rooms socketId = None →
  on_joinRoom rooms socketId (join_payload s)
  = mkResult (rooms_set rooms (toUpperCase s) (joined room socketId))
      [ SocketJoin socketId (code room);
        SocketEmit socketId (EvJoinedRoom (code room) O);
        IoToEmit (code room)
          (EvGameStart (board room) (currentPlayer room)
             "La partita è iniziata! X inizia.") ]
      Returned.
Proof.
  intros Hlen Hget Hfew Hfind. unfold on_joinRoom, getRoom.
  change (roomCode_toUpperCase (join_payload s)) with (Ok (Some (toUpperCase s))).
  cbv iota. rewrite toUpperCase_idemp, Hget, Hfind.
  rewrite (bool_decide_eq_false_2 (toUpperCase s = "")).
  2:{ intros Heq. apply (f_equal String.length) in Heq.
      rewrite toUpperCase_length in Heq. simpl in Heq. lia. }
  rewrite bool_decide_eq_false_2
    by (rewrite toUpperCase_length; intros H; by apply H).
  cbn [orb]. by rewrite (proj2 (Nat.leb_gt 2 _)) by done.
Qed.

Lemma on_disconnect_found rooms socketId k room :
  store_ok rooms →
  findPlayerRoom rooms socketId = Some (k, room) →
  on_disconnect rooms socketId
  = mkResult
      (if bool_decide (length (players (left_by room socketId)) = 0%nat)
       then rooms_delete (rooms_set rooms k (left_by room socketId)) k
       else rooms_set rooms k (left_by room socketId))
      [IoToEmit k player_left] Returned.
Proof.
  intros Hok Hfind. unfold on_disconnect. rewrite Hfind.
  destruct (found_rooms_get _ _ _ _ Hok Hfind) as (_ & Hcode & _).
  fold (left_by room socketId). cbn [code left_by]. rewrite Hcode.
  by destruct (bool_decide _).
Qed.

Lemma not_in_after_disconnect rooms socketId :
  store_ok rooms →
  socketId ∉ all_players (r_rooms (on_disconnect rooms socketId)).
Proof.
  intros Hok. unfold on_disconnect.
  destruct (findPlayerRoom rooms socketId) as [[k room]|] eqn:Hfind.
  2:{ by apply findPlayerRoom_None_all. }
  pose proof Hfind as [Hin Hp]%findPlayerRoom_Some.
  destruct (store_ok_code _ _ _ Hok Hin) as [Hcode _].
  destruct (store_update _ _ _ (store_ok_keys _ Hok) Hin)
    as (pre & post & Heq & Hset & Hdel).
  destruct Hok as (_ & _ & Hnd). rewrite Heq in Hnd.
  rewrite all_players_app, all_players_cons in Hnd.
  apply NoDup_app in Hnd as (_ & Hdisj & (_ & Hdisj' & _)%NoDup_app).
  assert (Hpre : socketId ∉ all_players pre).
  { intros H. apply (Hdisj _ H). apply elem_of_app. by left. }
  assert (Hpost : socketId ∉ all_players post) by by apply Hdisj'.
  cbn [players code]. rewrite Hcode.
  destruct (bool_decide _); cbn [r_rooms].
  - rewrite Hdel, all_players_app, elem_of_app. by intros [?|?].
  - rewrite Hset, all_players_app, all_players_cons. cbn [players].
    rewrite !elem_of_app, list_elem_of_filter.
    intros [?|[[Hne _]|?]]; [done| |done]. by apply Hne.
Qed.
End JoinLeave.

Section Lookups.
Implicit Types (rooms : list (string * Room)) (k socketId : string).

Lemma on_joinRoom_not_found rooms socketId s :
  String.length s = 6%nat →
  rooms_get rooms (toUpperCase s) = None →
  on_joinRoom rooms socketId (join_payload s)
  = mkResult rooms [SocketEmit socketId (EvError NotFound)] Returned.
Proof.
  intros Hlen Hget. unfold on_joinRoom, getRoom.
  change (roomCode_toUpperCase (join_payload s)) with (Ok (Some (toUpperCase s))).
  cbv iota. rewrite toUpperCase_idemp, Hget.
  rewrite (bool_decide_eq_false_2 (toUpperCase s = "")).
  2:{ intros Heq. apply (f_equal String.length) in Heq.
      rewrite toUpperCase_length in Heq. simpl in Heq. lia. }
  by rewrite bool_decide_eq_false_2
    by (rewrite toUpperCase_length; intros H; by apply H).
Qed.
End Lookups.

(** C6. When a socket that is in a room disconnects, the handler sends
    the player-left notice to the room's channel and nothing else; the
    socket is then listed in no room; the other rooms are as before. If
    other participants remain, the room stays under its key with the
    socket filtered out of [players], its entry of [symbols] deleted,
    [gameActive] false whatever it was, and the rest unchanged. If none
    remains, the room is deleted: its key is gone, and a later join with
    that code is answered [NotFound]. A socket that is in no room
    changes nothing and sends nothing.

    The notice goes to the sockets joined to the channel [k]; the
    transport has taken the leaving socket out of its channels by the
    time the handler runs. *)
Theorem disconnect_effect (rooms : list (string * Room)) (socketId : string) :
  store_ok rooms →
  (socketId ∉ all_players rooms →
   on_disconnect rooms socketId = mkResult rooms [] Returned)
  ∧ (∀ k room,
       findPlayerRoom rooms socketId = Some (k, room) →
       r_out (on_disconnect rooms socketId) = [IoToEmit k player_left]
       ∧ r_end (on_disconnect rooms socketId) = Returned
       ∧ (socketId ∉ all_players (r_rooms (on_disconnect rooms socketId)))
       ∧ (∀ k', k' ≠ k →
                rooms_get (r_rooms (on_disconnect rooms socketId)) k'
                = rooms_get rooms k')
       ∧ (filter (λ id, id ≠ socketId) (players room) ≠ [] →
          ∃ room',
            rooms_get (r_rooms (on_disconnect rooms socketId)) k = Some room'
            ∧ players room' = filter (λ id, id ≠ socketId) (players room)
            ∧ symbols room' !! socketId = None
            ∧ (∀ p, p ≠ socketId → symbols room' !! p = symbols room !! p)
            ∧ gameActive room' = false
            ∧ board room' = board room
            ∧ currentPlayer room' = currentPlayer room
            ∧ code room' = code room)
       ∧ (filter (λ id, id ≠ socketId) (players room) = [] →
          rooms_get (r_rooms (on_disconnect rooms socketId)) k = None
          ∧ (k ∉ (r_rooms (on_disconnect rooms socketId)).*1)
          ∧ ∀ joiner s,
              toUpperCase s = k →
              on_joinRoom (r_rooms (on_disconnect rooms socketId)) joiner
                (join_payload s)
              = mkResult (r_rooms (on_disconnect rooms socketId))
                  [SocketEmit joiner (EvError NotFound)] Returned)).
Proof.
  intros Hok. split.
  - intros Hnot. apply findPlayerRoom_None_all in Hnot.
    unfold on_disconnect. by rewrite Hnot.
  - intros k room Hfind.
    pose proof (not_in_after_disconnect rooms socketId Hok) as Hgone.
    rewrite (on_disconnect_found _ _ _ _ Hok Hfind) in *. cbn [r_out r_end r_rooms] in *.
    pose proof Hfind as [Hin _]%findPlayerRoom_Some.
    destruct (store_ok_code _ _ _ Hok Hin) as [_ [Hlen _]].
    split; [done|]. split; [done|]. split; [done|]. split; [|split].
    + intros k' Hne. destruct (bool_decide _).
      * rewrite rooms_get_delete, rooms_get_set.
        by rewrite !decide_False by congruence.
      * rewrite rooms_get_set. by rewrite decide_False by congruence.
    + intros Hsome. rewrite bool_decide_eq_false_2.
      2:{ cbn [left_by players]. intros H%nil_length_inv. done. }
      exists (left_by room socketId). rewrite rooms_get_set, decide_True by done.
      cbn [left_by players symbols gameActive board currentPlayer code].
      repeat split; try done.
      * apply lookup_delete_eq.
      * intros p Hp. by apply lookup_delete_ne.
    + intros Hnone. rewrite bool_decide_eq_true_2.
      2:{ cbn [left_by players]. by rewrite Hnone. }
      assert (Hget : rooms_get
                (rooms_delete (rooms_set rooms k (left_by room socketId)) k) k
              = None)
        by (rewrite rooms_get_delete; by rewrite decide_True).
      split; [done|]. split; [by apply rooms_get_None|].
      intros joiner s Hs. apply on_joinRoom_not_found.
      * rewrite <- toUpperCase_length. by rewrite Hs.
      * by rewrite Hs.
Qed.

Lemma disconnect_effect_witness :
  rooms_get (r_rooms (on_disconnect store_created "a")) "ABCDEF" = None
  ∧ ("ABCDEF" ∉ (r_rooms (on_disconnect store_created "a")).*1)
  ∧ ∀ joiner s,
      toUpperCase s = "ABCDEF" →
      on_joinRoom (r_rooms (on_disconnect store_created "a")) joiner
        (join_payload s)
      = mkResult (r_rooms (on_disconnect store_created "a"))
          [SocketEmit joiner (EvError NotFound)] Returned.
Proof.
  refine (proj2 (proj2 (proj2 (proj2 (proj2
    (proj2 (disconnect_effect store_created "a" _) "ABCDEF"
       {| code := "ABCDEF"; players := ["a"]; board := replicate 9 None;
          currentPlayer := X; gameActive := false;
          symbols := {[ "a" := X ]} |} _))))) _).
  - compute_done.
  - reflexivity.
  - reflexivity.
Defined.

(** ** Reset *)

(** C7. A new-game request is answered [NotInSession] when the
    requester is in no room and [InsufficientPlayers] when its room does
    not have exactly two participants, the store staying as it was.
    Otherwise the room is reset: nine empty cells, [X] to play, active,
    participants and symbols kept, the other rooms untouched; and the
    only message is a [gameStart] for the room's channel carrying that
    board and turn. A successful join sends a [gameStart] of the same
    shape (board, current player, message) to the room's channel. *)
Theorem newGame_effect (rooms : list (string * Room)) (socketId : string) :
  store_ok rooms →
  (findPlayerRoom rooms socketId = None →
   on_newGame rooms socketId
   = mkResult rooms [SocketEmit socketId (EvError NotInSession)] Returned)
  ∧ (∀ k room,
       findPlayerRoom rooms socketId = Some (k, room) →
       (length (players room) ≠ 2%nat →
        on_newGame rooms socketId
        = mkResult rooms [SocketEmit socketId (EvError InsufficientPlayers)]
            Returned)
       ∧ (length (players room) = 2%nat →
          ∃ room',
            rooms_get (r_rooms (on_newGame rooms socketId)) k = Some room'
            ∧ board room' = replicate 9 None
            ∧ currentPlayer room' = X
            ∧ gameActive room' = true
            ∧ players room' = players room
            ∧ symbols room' = symbols room
            ∧ code room' = code room
            ∧ (∀ k', k' ≠ k →
                     rooms_get (r_rooms (on_newGame rooms socketId)) k'
                     = rooms_get rooms k')
            ∧ r_out (on_newGame rooms socketId)
              = [IoToEmit k
                   (EvGameStart (board room') (currentPlayer room')
                      "Nuova partita! X inizia.")]
            ∧ r_end (on_newGame rooms socketId) = Returned))
  ∧ (∀ joiner s room,
       String.length s = 6%nat →
       rooms_get rooms (toUpperCase s) = Some room →
       (length (players room) < 2)%nat →
       findPlayerRoom rooms joiner = None →
       ∃ room' message,
         rooms_get (r_rooms (on_joinRoom rooms joiner (join_payload s)))
           (toUpperCase s) = Some room'
         ∧ IoToEmit (toUpperCase s)
             (EvGameStart (board room') (currentPlayer room') message)
           ∈ r_out (on_joinRoom rooms joiner (join_payload s))).
Proof.
  intros Hok. split; [|split].
  - intros Hfind. unfold on_newGame. by rewrite Hfind.
  - intros k room Hfind. unfold on_newGame. rewrite Hfind. split.
    + intros Hlen. by rewrite bool_decide_eq_true_2.
    + intros Hlen. rewrite bool_decide_eq_false_2 by (intros H; by apply H).
      destruct (found_rooms_get _ _ _ _ Hok Hfind) as (_ & Hcode & _).
      exists (resetGame room). cbn [r_rooms r_out r_end].
      rewrite rooms_get_set, decide_True by done.
      cbn [resetGame board currentPlayer gameActive players symbols code].
      rewrite Hcode. repeat split; try done.
      intros k' Hne. rewrite rooms_get_set. by rewrite decide_False by congruence.
  - intros joiner s room Hlen Hget Hfew Hfind.
    rewrite (on_joinRoom_success _ _ _ _ Hlen Hget Hfew Hfind).
    cbn [r_rooms r_out].
    apply rooms_get_Some_elem_of in Hget as Hin.
    destruct (store_ok_code _ _ _ Hok Hin) as [-> _].
    exists (joined room joiner), "La partita è iniziata! X inizia.".
    rewrite rooms_get_set, decide_True by done. split; [done|].
    cbn [joined board currentPlayer]. set_solver.
Qed.

Lemma newGame_effect_witness :
  ∃ room',
    rooms_get (r_rooms (on_newGame store_played "b")) "ABCDEF" = Some room'
    ∧ board room' = replicate 9 None
    ∧ currentPlayer room' = X
    ∧ gameActive room' = true
    ∧ players room' = players (moved room_started 0)
    ∧ symbols room' = symbols (moved room_started 0)
    ∧ code room' = code (moved room_started 0)
    ∧ (∀ k', k' ≠ "ABCDEF" →
             rooms_get (r_rooms (on_newGame store_played "b")) k'
             = rooms_get store_played k')
    ∧ r_out (on_newGame store_played "b")
      = [IoToEmit "ABCDEF"
           (EvGameStart (board room') (currentPlayer room')
              "Nuova partita! X inizia.")]
    ∧ r_end (on_newGame store_played "b") = Returned.
Proof.
  refine (proj2 (proj1 (proj2 (newGame_effect store_played "b" _))
                   "ABCDEF" (moved room_started 0) _) _).
  - compute_done.
  - reflexivity.
  - reflexivity.
Defined.

(** ** Room codes are unique *)

(** C8. Whatever the store, a code returned by [generateRoomCode] has
    six characters, each from [A-Z0-9], and is not a key of the store;
    and the generator does return as soon as the random source yields
    such a code. So in every store the server can reach the keys are
    pairwise distinct, each is such a code, and each room sits under its
    own code: a code in use is never handed out again. *)
Theorem generated_code_unique :
  (∀ (rooms : list (string * Room)) draws c rest,
     draws_ok draws →
     generateRoomCode rooms draws = Some (c, rest) →
     valid_code c ∧ c ∉ rooms.*1)
  ∧ (∀ (rooms : list (string * Room)) draws c rest,
       build_code 6 "" draws = Some (c, rest) →
       c ∉ rooms.*1 →
       generateRoomCode rooms draws = Some (c, rest))
  ∧ (∀ rooms : list (string * Room),
       reachable rooms →
       NoDup rooms.*1
       ∧ Forall (λ kv, valid_code kv.1 ∧ code kv.2 = kv.1) rooms).
Proof.
  split; [|split].
  - intros rooms draws c rest Hok Hgen. by eapply generate_loop_spec.
  - apply generateRoomCode_returns.
  - intros rooms (Hkeys & Hall & _)%reachable_ok. split; [done|].
    eapply Forall_impl; [exact Hall|]. by intros kv [? ?].
Qed.

Lemma generated_code_unique_witness :
  valid_code "ABCDEF" ∧ "ABCDEF" ∉ (@nil (string * Room)).*1.
Proof.
  apply (proj1 generated_code_unique [] [0; 1; 2; 3; 4; 5]%nat "ABCDEF" []).
  - unfold draws_ok. repeat constructor.
  - reflexivity.
Defined.

(** ** Unreadable payloads *)

(** C9 (as the code behaves). A [joinRoom] event without payload makes
    the handler throw a [TypeError] at line 182, before anything is
    sent; so does a payload whose [roomCode] is a number. A [makeMove]
    event without payload from a player whose game is active throws at
    line 250. In each case the store is as before and no error message
    is sent to the requester. And a [cellIndex] that is the string ["3"]
    is not rejected: it passes line 259 and the move is played in cell
    3. *)
Theorem malformed_payload_throws :
  (∀ (rooms : list (string * Room)) socketId,
     on_joinRoom rooms socketId JUndefined = mkResult rooms [] (Threw TypeError))
  ∧ (∀ (rooms : list (string * Room)) socketId z,
       on_joinRoom rooms socketId (JObj [("roomCode", JNum z)])
       = mkResult rooms [] (Threw TypeError))
  ∧ on_makeMove store_started "a" JUndefined
    = mkResult store_started [] (Threw TypeError)
  ∧ on_makeMove store_started "a" (JObj [("cellIndex", JStr "3")])
    = mkResult [("ABCDEF", moved room_started 3)]
        [IoToEmit "ABCDEF"
           (EvMoveMade (board (moved room_started 3)) O (JStr "3") X)]
        Returned.
Proof. split; [done|]. split; [done|]. split; reflexivity. Qed.

(** ** One room per socket *)




(** ** Joining a room that a player has left *)

(** C10. Take a room with two participants, one of whom disconnects,
    and let a socket that is in no room then join with the room's code.
    The join succeeds and assigns ['O'] to the joiner, without a look at
    the symbol of the participant who stayed: the room then lists the
    one who stayed and the joiner, in this order; the symbol of the one
    who stayed, the board and the current player are what they were
    before the disconnection; the game is active. In particular, when
    the one who stayed holds ['O'], both participants hold ['O']. *)
Theorem rejoin_assigns_O (rooms : list (string * Room))
    (k : string) (room : Room) (leaver stay joiner s : string) :
  store_ok rooms →
  rooms_get rooms k = Some room →
  players room = [leaver; stay] ∨ players room = [stay; leaver] →
  joiner ∉ all_players (r_rooms (on_disconnect rooms leaver)) →
  toUpperCase s = k →
  ∃ room1 room2,
    rooms_get (r_rooms (on_disconnect rooms leaver)) k = Some room1
    ∧ players room1 = [stay]
    ∧ on_joinRoom (r_rooms (on_disconnect rooms leaver)) joiner (join_payload s)
      = mkResult (rooms_set (r_rooms (on_disconnect rooms leaver)) k room2)
          [ SocketJoin joiner k;
            SocketEmit joiner (EvJoinedRoom k O);
            IoToEmit k
              (EvGameStart (board room) (currentPlayer room)
                 "La partita è iniziata! X inizia.") ]
          Returned
    ∧ players room2 = [stay; joiner]
    ∧ symbols room2 !! joiner = Some O
    ∧ symbols room2 !! stay = symbols room !! stay
    ∧ board room2 = board room
    ∧ currentPlayer room2 = currentPlayer room
    ∧ gameActive room2 = true
    ∧ (symbols room !! stay = Some O →
       symbols room2 !! stay = Some O ∧ symbols room2 !! joiner = Some O).
Proof.
  intros Hok Hget Hplayers Hjoiner Hs.
  apply rooms_get_Some_elem_of in Hget as Hin.
  destruct (store_ok_code _ _ _ Hok Hin) as [Hcode [Hlen _]].
  pose proof (store_ok_players _ _ _ Hok Hin) as Hnd.
  assert (Hne : stay ≠ leaver).
  { destruct Hplayers as [Hp|Hp]; rewrite Hp in Hnd;
      apply NoDup_cons in Hnd as [Hnot _]; intros ->; apply Hnot; by left. }
  assert (Hleaver : leaver ∈ players room).
  { destruct Hplayers as [-> | ->]; set_solver. }
  assert (Hfilter : filter (λ id, id ≠ leaver) (players room) = [stay]).
  { destruct Hplayers as [-> | ->].
    - rewrite filter_cons_False by (intros H; by apply H).
      by rewrite filter_cons_True by done.
    - rewrite filter_cons_True by done.
      by rewrite filter_cons_False by (intros H; by apply H). }
  assert (Hfind : findPlayerRoom rooms leaver = Some (k, room)).
  { apply findPlayerRoom_unique; [by destruct Hok as (_ & _ & ?)|done|done]. }
  rewrite (on_disconnect_found _ _ _ _ Hok Hfind) in *.
  cbn [r_rooms] in *.
  rewrite bool_decide_eq_false_2 in *
    by (cbn [left_by players]; by rewrite Hfilter).
  set (room1 := left_by room leaver) in *.
  set (rooms1 := rooms_set rooms k room1) in *.
  assert (Hget1 : rooms_get rooms1 k = Some room1)
    by (unfold rooms1; rewrite rooms_get_set; by rewrite decide_True).
  assert (Hp1 : players room1 = [stay]) by done.
  assert (Hnej : stay ≠ joiner).
  { intros ->. apply Hjoiner, elem_of_all_players. exists k, room1. split.
    - by apply rooms_get_Some_elem_of.
    - rewrite Hp1. by left. }
  exists room1, (joined room1 joiner).
  split; [done|]. split; [done|]. split.
  - rewrite (on_joinRoom_success rooms1 joiner s room1).
    + by rewrite Hs; cbn [room1 left_by code board currentPlayer]; rewrite Hcode.
    + rewrite <- toUpperCase_length. by rewrite Hs.
    + by rewrite Hs.
    + rewrite Hp1. simpl. lia.
    + by apply findPlayerRoom_None_all.
  - cbn [joined room1 left_by players symbols board currentPlayer gameActive].
    rewrite Hfilter.
    assert (Hstay : <[joiner:=O]> (delete leaver (symbols room)) !! stay
                    = symbols room !! stay).
    { rewrite lookup_insert_ne by done. by rewrite lookup_delete_ne. }
    assert (Hj : <[joiner:=O]> (delete leaver (symbols room)) !! joiner = Some O)
      by apply lookup_insert_eq.
    repeat split; try done. by rewrite Hstay.
Qed.

Lemma rejoin_assigns_O_witness :
  ∃ room1 room2,
    rooms_get (r_rooms (on_disconnect store_started "a")) "ABCDEF" = Some room1
    ∧ players room1 = ["b"]
    ∧ on_joinRoom (r_rooms (on_disconnect store_started "a")) "c"
        (join_payload "abcdef")
      = mkResult
          (rooms_set (r_rooms (on_disconnect store_started "a")) "ABCDEF" room2)
          [ SocketJoin "c" "ABCDEF";
            SocketEmit "c" (EvJoinedRoom "ABCDEF" O);
            IoToEmit "ABCDEF"
              (EvGameStart (board room_started) (currentPlayer room_started)
                 "La partita è iniziata! X inizia.") ]
          Returned
    ∧ players room2 = ["b"; "c"]
    ∧ symbols room2 !! "c" = Some O
    ∧ symbols room2 !! "b" = symbols room_started !! "b"
    ∧ board room2 = board room_started
    ∧ currentPlayer room2 = currentPlayer room_started
    ∧ gameActive room2 = true
    ∧ (symbols room_started !! "b" = Some O →
       symbols room2 !! "b" = Some O ∧ symbols room2 !! "c" = Some O).
Proof.
  apply (rejoin_assigns_O store_started "ABCDEF" room_started "a" "b" "c"
           "abcdef").
  - compute_done.
  - reflexivity.
  - left. reflexivity.
  - compute_done.
  - reflexivity.
Defined.

(** ** Joining does not restart the game *)

(** C4 (as the code behaves). In the store reached by: [a] creates a
    room, [b] joins, [a] plays cell 0, [b] disconnects -- the join of
    [c] succeeds, makes [c] the second participant with ['O'] and the
    game active, and leaves the board and the turn as the interrupted
    game had them: cell 0 holds ['X'] and ['O'] is to play. The
    [gameStart] message carries that board and that turn. *)
Theorem joinRoom_keeps_old_game :
  reachable store_abandoned
  ∧ ∃ room',
      on_joinRoom store_abandoned "c" (join_payload "ABCDEF")
      = mkResult [("ABCDEF", room')]
          [ SocketJoin "c" "ABCDEF";
            SocketEmit "c" (EvJoinedRoom "ABCDEF" O);
            IoToEmit "ABCDEF"
              (EvGameStart (board room') (currentPlayer room')
                 "La partita è iniziata! X inizia.") ]
          Returned
      ∧ players room' = ["a"; "c"]
      ∧ symbols room' !! "c" = Some O
      ∧ gameActive room' = true
      ∧ board room'
        = [Some X; None; None; None; None; None; None; None; None]
      ∧ currentPlayer room' = O.
Proof.
  split.
  - apply (reach_step store_played "b" Disconnect
             (on_disconnect store_played "b")).
    + apply store_played_reachable.
    + exact I.
    + reflexivity.
  - exists (joined (left_by (moved room_started 0) "b") "c").
    repeat split; reflexivity.
Qed.


(** * Further properties of the server *)

(** ** The shape of a step *)

Section Steps.
Implicit Types (rooms pre post : list (string * Room)) (k socketId : string)
  (room : Room).

(** What an event does to the store: nothing; or it appends a fresh room
    for a socket that was in none; or it takes one room through a
    [room_step]; or it removes the room whose only participant left. *)
Lemma handle_shape rooms socketId ev res :
  store_ok rooms →
  handle rooms socketId ev = Some res →
  r_rooms res = rooms
  ∨ (∃ c, (c ∉ rooms.*1) ∧ (socketId ∉ all_players rooms)
          ∧ r_rooms res = rooms ++ [(c, fresh_room c socketId)])
  ∨ (∃ pre k room post room',
       rooms = pre ++ (k, room) :: post
       ∧ room_step socketId room room'
       ∧ r_rooms res = pre ++ (k, room') :: post)
  ∨ (∃ pre k room post,
       rooms = pre ++ (k, room) :: post
       ∧ socketId ∈ players room
       ∧ filter (λ id, id ≠ socketId) (players room) = []
       ∧ r_rooms res = pre ++ post).
Proof.
  intros Hok Hh. destruct ev as [draws|data|data| |]; simpl in Hh.
  - unfold on_createRoom, createRoom in Hh.
    destruct (findPlayerRoom rooms socketId) eqn:Hfind;
      [injection Hh as <-; by left|].
    destruct (generateRoomCode rooms draws) as [[c rest]|] eqn:Hgen; [|done].
    injection Hh as <-. right. left. exists c.
    apply generate_loop_fresh in Hgen.
    split; [done|]. split; [by apply findPlayerRoom_None_all|].
    cbn [r_rooms]. by rewrite rooms_set_fresh.
  - injection Hh as <-. unfold on_joinRoom.
    destruct (roomCode_toUpperCase data) as [[c|]|e]; try by left.
    destruct (bool_decide (c = "") || bool_decide (String.length c ≠ 6%nat));
      [by left|].
    unfold getRoom.
    destruct (rooms_get rooms (toUpperCase c)) as [room|] eqn:Hget; [|by left].
    destruct (2 <=? length (players room))%nat eqn:Hfull; [by left|].
    destruct (findPlayerRoom rooms socketId) eqn:Hfind; [by left|].
    right. right. left. cbn [r_rooms].
    apply rooms_get_Some_elem_of in Hget.
    destruct (store_update _ _ _ (store_ok_keys _ Hok) Hget)
      as (pre & post & Heq & Hset & _).
    exists pre, (toUpperCase c), room, post, (joined room socketId).
    split; [done|]. split; [|by rewrite Hset].
    apply step_join; [by apply Nat.leb_gt|].
    rewrite findPlayerRoom_None in Hfind. by apply (Hfind (toUpperCase c)).
  - injection Hh as <-.
    destruct (on_makeMove_cases rooms socketId data)
      as [(k & room & i & Hacc)|[(message & -> & _)| ->]]; [|by left|by left].
    destruct (on_makeMove_accepted _ _ _ _ _ _ Hacc) as (-> & _).
    destruct Hacc as (Hfind & Hact & Hsym & _ & Hle & Hcell).
    apply findPlayerRoom_Some in Hfind as [Hin Hp].
    destruct (store_update _ _ _ (store_ok_keys _ Hok) Hin)
      as (pre & post & Heq & Hset & _).
    right. right. left. exists pre, k, room, post, (moved room i).
    split; [done|]. split; [by apply step_move|by rewrite Hset].
  - injection Hh as <-. unfold on_newGame.
    destruct (findPlayerRoom rooms socketId) as [[k room]|] eqn:Hfind; [|by left].
    destruct (bool_decide (length (players room) ≠ 2%nat)) eqn:Hlen; [by left|].
    apply bool_decide_eq_false in Hlen. apply dec_stable in Hlen.
    apply findPlayerRoom_Some in Hfind as [Hin Hp].
    destruct (store_update _ _ _ (store_ok_keys _ Hok) Hin)
      as (pre & post & Heq & Hset & _).
    right. right. left. exists pre, k, room, post, (resetGame room).
    split; [done|]. split; [by apply step_reset|]. cbn [r_rooms]. by rewrite Hset.
  - injection Hh as <-.
    destruct (findPlayerRoom rooms socketId) as [[k room]|] eqn:Hfind.
    2:{ left. unfold on_disconnect. by rewrite Hfind. }
    rewrite (on_disconnect_found _ _ _ _ Hok Hfind). cbn [r_rooms].
    apply findPlayerRoom_Some in Hfind as [Hin Hp].
    destruct (store_update _ _ _ (store_ok_keys _ Hok) Hin)
      as (pre & post & Heq & Hset & Hdel).
    destruct (bool_decide _) eqn:Hempty.
    + apply bool_decide_eq_true in Hempty. apply nil_length_inv in Hempty.
      right. right. right. exists pre, k, room, post.
      split; [done|]. split; [done|]. split; [done|]. by rewrite Hdel.
    + apply bool_decide_eq_false in Hempty.
      right. right. left. exists pre, k, room, post, (left_by room socketId).
      split; [done|]. split; [|by rewrite Hset].
      apply step_leave; [done|]. intros Hnil. apply Hempty.
      cbn [left_by players]. by rewrite Hnil.
Qed.

(** A property of rooms that fresh rooms have and room steps keep holds
    of all rooms after an event, and so of all rooms of a reachable
    store. *)
Lemma handle_rooms_inv (P : Room → Prop) rooms socketId ev res :
  (∀ c s, P (fresh_room c s)) →
  (∀ s room room', P room → room_step s room room' → P room') →
  store_ok rooms →
  Forall (λ kv, P kv.2) rooms →
  handle rooms socketId ev = Some res →
  Forall (λ kv, P kv.2) (r_rooms res).
Proof.
  intros Hfresh Hstep Hok Hall Hh.
  destruct (handle_shape _ _ _ _ Hok Hh)
    as [->|[(c & _ & _ & ->)|[(pre & k & room & post & room' & -> & Hs & ->)
                              |(pre & k & room & post & -> & _ & _ & ->)]]].
  - done.
  - apply Forall_app. split; [done|]. apply Forall_singleton. apply Hfresh.
  - apply Forall_app in Hall as [Hpre [Hroom Hpost]%Forall_cons].
    apply Forall_app. split; [done|]. apply Forall_cons. split; [|done].
    by eapply Hstep.
  - apply Forall_app in Hall as [Hpre [_ Hpost]%Forall_cons].
    by apply Forall_app.
Qed.

Lemma reachable_rooms_inv (P : Room → Prop) rooms :
  (∀ c s, P (fresh_room c s)) →
  (∀ s room room', P room → room_step s room room' → P room') →
  reachable rooms →
  Forall (λ kv, P kv.2) rooms.
Proof.
  intros Hfresh Hstep. induction 1 as [|rooms socketId ev res Hreach IH Hev Hh].
  - constructor.
  - eapply handle_rooms_inv; try done. by apply reachable_ok.
Qed.
End Steps.

(** ** What holds of every room *)

Section RoomInvariant.
Implicit Types (bd : list (option Marker)) (room : Room) (m : Marker).

Lemma marks_replicate m n : marks m (replicate n None) = 0%nat.
Proof.
  unfold marks. induction n as [|n IH]; [done|]. simpl.
  by rewrite filter_cons_False.
Qed.

Lemma marks_cons m cell bd :
  marks m (cell :: bd)
  = ((if decide (cell = Some m) then 1 else 0) + marks m bd)%nat.
Proof. unfold marks. rewrite filter_cons. by destruct (decide _). Qed.

(** Writing a symbol into an empty cell adds one mark of that symbol and
    none of the other. *)
Lemma marks_insert m m' bd i :
  bd !! i = Some None →
  marks m (<[i := Some m']> bd)
  = (marks m bd + if decide (m = m') then 1 else 0)%nat.
Proof.
  revert i. induction bd as [|cell bd IH]; intros i Hi; [done|].
  destruct i as [|i]; simpl in *.
  - injection Hi as ->. rewrite !marks_cons.
    rewrite (decide_False (P := None = Some m)) by done.
    destruct (decide (m = m')) as [->|Hne].
    + rewrite decide_True by done. lia.
    + rewrite decide_False by congruence. lia.
  - rewrite !marks_cons, (IH _ Hi). lia.
Qed.

(** On a board without empty cell every cell holds [X] or [O]. *)
Lemma marks_full bd :
  full bd → (marks X bd + marks O bd = length bd)%nat.
Proof.
  induction bd as [|cell bd IH]; intros Hfull; [done|].
  rewrite !marks_cons. simpl.
  assert (Hrest : full bd) by (intros c Hc; apply Hfull; by right).
  specialize (IH Hrest).
  destruct cell as [[]|].
  - rewrite decide_True, decide_False by done. lia.
  - rewrite decide_False, decide_True by done. lia.
  - destruct (Hfull None); [by left|done].
Qed.

Lemma room_ok_fresh c socketId : room_ok (fresh_room c socketId).
Proof.
  unfold room_ok, fresh_room. cbn.
  split; [done|]. split; [lia|]. split; [done|]. split; [|done].
  intros p. rewrite list_elem_of_singleton. split.
  - intros [m Hm]. apply lookup_singleton_Some in Hm as [-> _]. done.
  - intros ->. rewrite lookup_singleton_eq. by eexists.
Qed.

Lemma room_ok_step socketId room room' :
  room_ok room → room_step socketId room room' → room_ok room'.
Proof.
  intros (Hbd & Hlen & Hact & Hsym & Hmarks) Hstep.
  destruct Hstep as [room Hfew Hnot|room i Hp Hactive Hs Hle Hcell
                    |room Hp Htwo|room Hp Hsome].
  - unfold room_ok. cbn [joined board players gameActive symbols currentPlayer].
    rewrite length_app. simpl.
    split; [done|]. split; [lia|]. split; [lia|]. split; [|done].
    intros p. rewrite elem_of_app, list_elem_of_singleton, <- Hsym.
    destruct (decide (socketId = p)) as [->|Hne].
    + rewrite lookup_insert_eq. split; [by right|by eexists].
    + rewrite lookup_insert_ne by done. split; [by left|].
      intros [?|?]; [done|congruence].
  - unfold room_ok. cbn [moved board players gameActive symbols currentPlayer].
    rewrite length_insert.
    split; [done|]. split; [done|]. split; [|split; [done|]].
    + intros _. by apply Hact.
    + rewrite !(marks_insert _ _ _ _ Hcell), Hmarks.
      destruct (currentPlayer room); simpl;
        repeat (rewrite decide_True by done);
        repeat (rewrite decide_False by done); lia.
  - unfold room_ok. cbn [resetGame board players gameActive symbols currentPlayer].
    rewrite length_replicate, !marks_replicate.
    split; [done|]. split; [done|]. split; [done|]. split; done.
  - unfold room_ok. cbn [left_by board players gameActive symbols currentPlayer].
    pose proof (length_filter (λ id, id ≠ socketId) (players room)) as Hf.
    split; [done|]. split; [|split; [done|split; [|done]]].
    + destruct (filter _ (players room)) eqn:Hfl; [done|]. simpl in *. lia.
    + intros p. rewrite list_elem_of_filter, <- Hsym.
      destruct (decide (socketId = p)) as [->|Hne].
      * rewrite lookup_delete_eq. split; [by intros [? ?]|by intros [? _]].
      * rewrite lookup_delete_ne by done. split; [|by intros [_ ?]].
        intros ?. split; [congruence|done].
Qed.

Lemma reachable_room_ok (rooms : list (string * Room)) k room :
  reachable rooms → rooms_get rooms k = Some room → room_ok room.
Proof.
  intros Hreach Hget%rooms_get_Some_elem_of.
  pose proof (reachable_rooms_inv room_ok rooms room_ok_fresh
                (λ s r r' Hr Hs, room_ok_step s r r' Hr Hs) Hreach) as Hall.
  rewrite Forall_forall in Hall. by apply (Hall (k, room)).
Qed.
End RoomInvariant.

Lemma store_won_reachable : reachable store_won.
Proof.
  apply (run_reachable [] store_won first_row_game
           (default [] (snd <$> run [] first_row_game))).
  - apply reach_init.
  - unfold first_row_game. repeat constructor.
  - reflexivity.
Qed.

Lemma store_won_eq : store_won = [("ABCDEF", room_won)].
Proof. reflexivity. Qed.

(** ** Rooms of a reachable store *)

(** X1. Every room of a store the server can reach has one or two
    participants, all different, and a room whose game is active has
    exactly two. *)
Theorem room_participants (rooms : list (string * Room)) k room :
  reachable rooms →
  rooms_get rooms k = Some room →
  (1 ≤ length (players room) ≤ 2)%nat
  ∧ NoDup (players room)
  ∧ (gameActive room = true → length (players room) = 2%nat).
Proof.
  intros Hreach Hget.
  destruct (reachable_room_ok _ _ _ Hreach Hget) as (_ & Hlen & Hact & _).
  split; [done|]. split; [|done].
  eapply store_ok_players; [by apply reachable_ok|].
  by apply rooms_get_Some_elem_of.
Qed.

Lemma room_participants_witness :
  (1 ≤ length (players room_started) ≤ 2)%nat
  ∧ NoDup (players room_started)
  ∧ (gameActive room_started = true → length (players room_started) = 2%nat).
Proof.
  apply (room_participants store_started "ABCDEF" room_started).
  - apply store_started_reachable.
  - reflexivity.
Defined.

(** X2. In every room of a store the server can reach the board has
    nine cells, and the marks agree with the turn: [X] and [O] have the
    same number of marks when [X] is to play, and [X] has one more when
    [O] is to play. *)
Theorem board_agrees_with_turn (rooms : list (string * Room)) k room :
  reachable rooms →
  rooms_get rooms k = Some room →
  length (board room) = 9%nat
  ∧ (currentPlayer room = X → marks X (board room) = marks O (board room))
  ∧ (currentPlayer room = O →
     marks X (board room) = S (marks O (board room))).
Proof.
  intros Hreach Hget.
  destruct (reachable_room_ok _ _ _ Hreach Hget) as (Hbd & _ & _ & _ & Hmarks).
  split; [done|]. split; intros Hturn; rewrite Hturn in Hmarks; lia.
Qed.

Lemma board_agrees_with_turn_witness :
  length (board room_won) = 9%nat
  ∧ (currentPlayer room_won = X →
     marks X (board room_won) = marks O (board room_won))
  ∧ (currentPlayer room_won = O →
     marks X (board room_won) = S (marks O (board room_won))).
Proof.
  apply (board_agrees_with_turn store_won "ABCDEF" room_won).
  - apply store_won_reachable.
  - reflexivity.
Defined.

(** X3. In every room of a store the server can reach, [symbols] has an
    entry for each participant and for nobody else; so a move of a
    participant whose game is active is never refused for lack of a
    symbol: it is refused with [NotYourTurn] only when the participant's
    symbol is the other one than the current player. *)
Theorem symbols_of_participants (rooms : list (string * Room)) k room :
  reachable rooms →
  rooms_get rooms k = Some room →
  (∀ p, is_Some (symbols room !! p) ↔ p ∈ players room)
  ∧ (∀ socketId z,
       socketId ∈ players room →
       gameActive room = true →
       on_makeMove rooms socketId (move_payload z)
       = mkResult rooms [SocketEmit socketId (EvError NotYourTurn)] Returned →
       symbols room !! socketId = Some (other_marker (currentPlayer room))).
Proof.
  intros Hreach Hget.
  destruct (reachable_room_ok _ _ _ Hreach Hget) as (_ & _ & _ & Hsym & _).
  split; [done|]. intros socketId z Hp Hact Hres.
  pose proof (reachable_ok _ Hreach) as Hok.
  assert (Hfind : findPlayerRoom rooms socketId = Some (k, room)).
  { apply findPlayerRoom_unique; [by destruct Hok as (_ & _ & ?)| |done].
    by apply rooms_get_Some_elem_of. }
  destruct (proj2 (Hsym socketId) Hp) as [sym Hs].
  destruct (decide (sym = currentPlayer room)) as [->|Hne].
  - exfalso. revert Hres. unfold on_makeMove.
    rewrite Hfind, Hact, Hs. cbn [negb]. rewrite move_payload_index.
    rewrite bool_decide_eq_false_2 by (intros H; by apply H).
    cbn [array_index]. destruct (0 <=? z)%Z; [|by intros [=]].
    destruct (_ || _); [by intros [=]|].
    destruct (checkWinner _); by intros [=].
  - rewrite Hs. f_equal. destruct sym, (currentPlayer room); done.
Qed.

Lemma symbols_of_participants_witness :
  (∀ p, is_Some (symbols room_started !! p) ↔ p ∈ players room_started)
  ∧ (∀ socketId z,
       socketId ∈ players room_started →
       gameActive room_started = true →
       on_makeMove store_started socketId (move_payload z)
       = mkResult store_started
           [SocketEmit socketId (EvError NotYourTurn)] Returned →
       symbols room_started !! socketId
       = Some (other_marker (currentPlayer room_started))).
Proof.
  apply (symbols_of_participants store_started "ABCDEF" room_started).
  - apply store_started_reachable.
  - reflexivity.
Defined.

(** ** Decided boards *)

Section Decided.
Implicit Types (bd : list (option Marker)) (m : Marker).

Lemma marks_one bd a m : bd !! a = Some (Some m) → (1 ≤ marks m bd)%nat.
Proof.
  revert a. induction bd as [|cell bd IH]; intros a Ha; [done|].
  rewrite marks_cons. destruct a as [|a]; simpl in Ha.
  - injection Ha as ->. rewrite decide_True by done. lia.
  - specialize (IH _ Ha). lia.
Qed.

Lemma marks_two bd a b m :
  (a < b)%nat → bd !! a = Some (Some m) → bd !! b = Some (Some m) →
  (2 ≤ marks m bd)%nat.
Proof.
  revert a b. induction bd as [|cell bd IH]; intros a b Hab Ha Hb; [done|].
  rewrite marks_cons. destruct b as [|b]; [lia|]. simpl in Hb.
  destruct a as [|a]; simpl in Ha.
  - injection Ha as ->. rewrite decide_True by done.
    pose proof (marks_one _ _ _ Hb). lia.
  - assert (Hlt : (a < b)%nat) by lia. specialize (IH _ _ Hlt Ha Hb). lia.
Qed.

Lemma marks_three bd a b c m :
  (a < b)%nat → (b < c)%nat →
  bd !! a = Some (Some m) → bd !! b = Some (Some m) → bd !! c = Some (Some m) →
  (3 ≤ marks m bd)%nat.
Proof.
  revert a b c. induction bd as [|cell bd IH]; intros a b c Hab Hbc Ha Hb Hc;
    [done|].
  rewrite marks_cons.
  destruct b as [|b]; [lia|]. destruct c as [|c]; [lia|]. simpl in Hb, Hc.
  destruct a as [|a]; simpl in Ha.
  - injection Ha as ->. rewrite decide_True by done.
    assert (Hlt : (b < c)%nat) by lia.
    pose proof (marks_two _ _ _ _ Hlt Hb Hc). lia.
  - assert (Hlt : (a < b)%nat) by lia. assert (Hlt' : (b < c)%nat) by lia.
    specialize (IH _ _ _ Hlt Hlt' Ha Hb Hc). lia.
Qed.

Lemma combination_increasing t :
  t ∈ WINNING_COMBINATIONS → (t.1.1 < t.1.2 ∧ t.1.2 < t.2)%nat.
Proof.
  unfold WINNING_COMBINATIONS. rewrite !elem_of_cons.
  intros H. repeat (destruct H as [->|H]; [simpl; lia|]).
  by apply elem_of_nil in H.
Qed.

(** A symbol that wins has at least three marks. *)
Lemma win_has_three_marks bd m :
  checkWinner bd = Win m → (3 ≤ marks m bd)%nat.
Proof.
  unfold checkWinner.
  destruct (scan_combos bd WINNING_COMBINATIONS) as [m0|] eqn:Hscan.
  2:{ by destruct (forallb _ bd). }
  intros [= ->].
  apply scan_combos_Some in Hscan as (t & pre & post & Heq & (Ha & Hb & Hc) & _).
  assert (Hin : t ∈ WINNING_COMBINATIONS).
  { rewrite Heq. apply elem_of_app. right. by left. }
  destruct (combination_increasing t Hin) as [Hab Hbc].
  exact (marks_three bd _ _ _ m Hab Hbc Ha Hb Hc).
Qed.

Lemma draw_is_full bd : checkWinner bd = Draw → full bd.
Proof.
  unfold checkWinner. destruct (scan_combos bd WINNING_COMBINATIONS); [done|].
  destruct (forallb _ bd) eqn:Hall; [|done]. intros _. by apply every_not_null.
Qed.
End Decided.

(** X4. In every room of a store the server can reach, a board on which
    [checkWinner] finds a winner or a draw holds at least five marks: a
    winner has at least three, and the marks agree with the turn. A
    drawn board holds five [X] and four [O]. *)
Theorem decided_board_marks (rooms : list (string * Room)) k room :
  reachable rooms →
  rooms_get rooms k = Some room →
  (∀ m, checkWinner (board room) = Win m → (3 ≤ marks m (board room))%nat)
  ∧ (checkWinner (board room) ≠ InProgress →
     (5 ≤ marks X (board room) + marks O (board room))%nat)
  ∧ (checkWinner (board room) = Draw →
     marks X (board room) = 5%nat ∧ marks O (board room) = 4%nat).
Proof.
  intros Hreach Hget.
  destruct (reachable_room_ok _ _ _ Hreach Hget) as (Hbd & _ & _ & _ & Hmarks).
  assert (Hdraw : checkWinner (board room) = Draw →
                  marks X (board room) = 5%nat ∧ marks O (board room) = 4%nat).
  { intros Hfull%draw_is_full%marks_full. rewrite Hbd in Hfull.
    destruct (currentPlayer room); lia. }
  split; [apply win_has_three_marks|]. split; [|done].
  intros Hdecided. destruct (checkWinner (board room)) as [m| |] eqn:Hv.
  - apply win_has_three_marks in Hv.
    destruct m, (currentPlayer room); lia.
  - destruct (Hdraw eq_refl). lia.
  - done.
Qed.

Lemma decided_board_marks_witness :
  (∀ m, checkWinner (board room_won) = Win m →
        (3 ≤ marks m (board room_won))%nat)
  ∧ (checkWinner (board room_won) ≠ InProgress →
     (5 ≤ marks X (board room_won) + marks O (board room_won))%nat)
  ∧ (checkWinner (board room_won) = Draw →
     marks X (board room_won) = 5%nat ∧ marks O (board room_won) = 4%nat).
Proof.
  apply (decided_board_marks store_won "ABCDEF" room_won).
  - apply store_won_reachable.
  - reflexivity.
Defined.

(** ** What an event does to one room *)

Section Runs.
Implicit Types (rooms : list (string * Room)) (k socketId : string)
  (room : Room).

(** The room stored at [k] after an event is the one stored there
    before, or the room the event created, or the room before after
    the join, the move, the reset or the departure of the socket. *)
Lemma handle_room_at rooms socketId ev res k room' :
  store_ok rooms →
  handle rooms socketId ev = Some res →
  rooms_get (r_rooms res) k = Some room' →
  rooms_get rooms k = Some room'
  ∨ (rooms_get rooms k = None
     ∧ (∃ draws, ev = CreateRoom draws)
     ∧ room' = fresh_room k socketId)
  ∨ (∃ room,
       rooms_get rooms k = Some room
       ∧ (((∃ data, ev = JoinRoom data)
           ∧ (length (players room) < 2)%nat
           ∧ room' = joined room socketId)
          ∨ (∃ data i, ev = MakeMove data
                       ∧ move_accepted rooms socketId data k room i
                       ∧ room' = moved room i)
          ∨ (ev = NewGame ∧ room' = resetGame room)
          ∨ (ev = Disconnect
             ∧ socketId ∈ players room
             ∧ room' = left_by room socketId))).
Proof.
  intros Hok Hh Hget'. destruct ev as [draws|data|data| |]; simpl in Hh.
  - unfold on_createRoom, createRoom in Hh.
    destruct (findPlayerRoom rooms socketId); [injection Hh as <-; by left|].
    destruct (generateRoomCode rooms draws) as [[c rest]|] eqn:Hgen; [|done].
    injection Hh as <-. cbn [r_rooms] in Hget'.
    apply generate_loop_fresh in Hgen.
    rewrite rooms_get_set in Hget'.
    destruct (decide (c = k)) as [->|Hne]; [|by left].
    right. left. split; [by apply rooms_get_None|].
    split; [by eexists|]. by injection Hget' as <-.
  - injection Hh as <-. revert Hget'. unfold on_joinRoom.
    destruct (roomCode_toUpperCase data) as [[c|]|e]; try (intros ?; by left).
    destruct (bool_decide (c = "") || bool_decide (String.length c ≠ 6%nat));
      [intros ?; by left|].
    unfold getRoom.
    destruct (rooms_get rooms (toUpperCase c)) as [room0|] eqn:Hget0;
      [|intros ?; by left].
    destruct (2 <=? length (players room0))%nat eqn:Hfull; [intros ?; by left|].
    destruct (findPlayerRoom rooms socketId); [intros ?; by left|].
    cbn [r_rooms]. rewrite rooms_get_set.
    destruct (decide (toUpperCase c = k)) as [Heq|Hne]; [|intros ?; by left].
    rewrite Heq in Hget0. intros [= <-]. right. right. exists room0.
    split; [done|]. left. split; [by eexists|].
    split; [by apply Nat.leb_gt|done].
  - injection Hh as <-.
    destruct (on_makeMove_cases rooms socketId data)
      as [(k0 & room0 & i & Hacc)|[(message & Heq & _)|Heq]].
    + destruct (on_makeMove_accepted _ _ _ _ _ _ Hacc) as (Hrooms & _).
      rewrite Hrooms, rooms_get_set in Hget'.
      destruct (decide (k0 = k)) as [->|Hne]; [|by left].
      injection Hget' as <-.
      pose proof Hacc as (Hfind & _).
      destruct (found_rooms_get _ _ _ _ Hok Hfind) as (Hget0 & _).
      right. right. exists room0. split; [done|]. right. left.
      by exists data, i.
    + rewrite Heq in Hget'. by left.
    + rewrite Heq in Hget'. by left.
  - injection Hh as <-. revert Hget'. unfold on_newGame.
    destruct (findPlayerRoom rooms socketId) as [[k0 room0]|] eqn:Hfind;
      [|intros ?; by left].
    destruct (bool_decide (length (players room0) ≠ 2%nat));
      [intros ?; by left|].
    destruct (found_rooms_get _ _ _ _ Hok Hfind) as (Hget0 & _).
    cbn [r_rooms]. rewrite rooms_get_set.
    destruct (decide (k0 = k)) as [->|Hne]; [|intros ?; by left].
    intros [= <-]. right. right. exists room0. split; [done|].
    right. right. by left.
  - injection Hh as <-. revert Hget'.
    destruct (findPlayerRoom rooms socketId) as [[k0 room0]|] eqn:Hfind.
    2:{ unfold on_disconnect. rewrite Hfind. intros ?; by left. }
    rewrite (on_disconnect_found _ _ _ _ Hok Hfind).
    destruct (found_rooms_get _ _ _ _ Hok Hfind) as (Hget0 & _ & Hp).
    destruct (bool_decide _); cbn [r_rooms].
    + rewrite rooms_get_delete, rooms_get_set.
      destruct (decide (k0 = k)); [done|]. intros ?; by left.
    + rewrite rooms_get_set.
      destruct (decide (k0 = k)) as [->|Hne]; [|intros ?; by left].
      intros [= <-]. right. right. exists room0. split; [done|].
      right. right. by right.
Qed.

(** A room stays in the store unless one of its participants
    disconnects. *)
Lemma handle_keeps_room rooms socketId ev res k room :
  store_ok rooms →
  (ev = Disconnect → socketId ∉ players room) →
  handle rooms socketId ev = Some res →
  rooms_get rooms k = Some room →
  is_Some (rooms_get (r_rooms res) k).
Proof.
  intros Hok Hstay Hh Hget.
  destruct ev as [draws|data|data| |]; simpl in Hh.
  - unfold on_createRoom, createRoom in Hh.
    destruct (findPlayerRoom rooms socketId); [injection Hh as <-; by eexists|].
    destruct (generateRoomCode rooms draws) as [[c rest]|]; [|done].
    injection Hh as <-. cbn [r_rooms]. rewrite rooms_get_set.
    destruct (decide (c = k)); by eexists.
  - injection Hh as <-. unfold on_joinRoom.
    destruct (roomCode_toUpperCase data) as [[c|]|e]; try (by eexists).
    destruct (bool_decide (c = "") || bool_decide (String.length c ≠ 6%nat));
      [by eexists|].
    destruct (getRoom rooms c) as [room0|]; [|by eexists].
    destruct (2 <=? length (players room0))%nat; [by eexists|].
    destruct (findPlayerRoom rooms socketId); [by eexists|].
    cbn [r_rooms]. rewrite rooms_get_set.
    destruct (decide (toUpperCase c = k)); by eexists.
  - injection Hh as <-.
    destruct (on_makeMove_cases rooms socketId data)
      as [(k0 & room0 & i & Hacc)|[(message & -> & _)| ->]];
      [|by eexists|by eexists].
    destruct (on_makeMove_accepted _ _ _ _ _ _ Hacc) as (-> & _).
    rewrite rooms_get_set. destruct (decide (k0 = k)); by eexists.
  - injection Hh as <-. unfold on_newGame.
    destruct (findPlayerRoom rooms socketId) as [[k0 room0]|]; [|by eexists].
    destruct (bool_decide (length (players room0) ≠ 2%nat)); [by eexists|].
    cbn [r_rooms]. rewrite rooms_get_set.
    destruct (decide (k0 = k)); by eexists.
  - injection Hh as <-.
    destruct (findPlayerRoom rooms socketId) as [[k0 room0]|] eqn:Hfind.
    2:{ unfold on_disconnect. rewrite Hfind. by eexists. }
    rewrite (on_disconnect_found _ _ _ _ Hok Hfind).
    destruct (found_rooms_get _ _ _ _ Hok Hfind) as (Hget0 & _ & Hp).
    assert (Hne : k0 ≠ k).
    { intros ->. destruct (Hstay eq_refl). congruence. }
    destruct (bool_decide _); cbn [r_rooms].
    + rewrite rooms_get_delete, rooms_get_set.
      rewrite !decide_False by done. by eexists.
    + rewrite rooms_get_set, decide_False by done. by eexists.
Qed.

(** What every allowed event keeps holds at the end of a run of such
    events. *)
Lemma run_inv (I : list (string * Room) → Prop)
    (allowed : string → ClientEvent → Prop) rooms rooms' evs out :
  (∀ rooms0 socketId ev res,
     store_ok rooms0 → I rooms0 → allowed socketId ev →
     handle rooms0 socketId ev = Some res → I (r_rooms res)) →
  store_ok rooms → I rooms →
  Forall (λ e, event_ok e.2 ∧ allowed e.1 e.2) evs →
  run rooms evs = Some (rooms', out) →
  store_ok rooms' ∧ I rooms'.
Proof.
  intros Hstep. revert rooms out.
  induction evs as [|[socketId ev] evs IH]; intros rooms out Hok HI Hevs;
    cbn [run].
  - by intros [= <- _].
  - apply Forall_cons in Hevs as [[Hev Hal] Hevs]. cbn [fst snd] in Hev, Hal.
    destruct (handle rooms socketId ev) as [res|] eqn:Hh; [|done].
    destruct (run (r_rooms res) evs) as [[rooms1 out1]|] eqn:Hrun; [|done].
    intros [= <- _]. eapply IH; [| |done|done].
    + by eapply handle_ok.
    + by eapply Hstep.
Qed.

(** A stopped game stays stopped until a join or a new game. *)
Lemma handle_stays_stopped rooms socketId ev res k :
  store_ok rooms →
  (∀ room, rooms_get rooms k = Some room → gameActive room = false) →
  ¬ restarts ev →
  handle rooms socketId ev = Some res →
  ∀ room, rooms_get (r_rooms res) k = Some room → gameActive room = false.
Proof.
  intros Hok Hstop Hev Hh room' Hget'.
  destruct (handle_room_at _ _ _ _ _ _ Hok Hh Hget')
    as [Hsame|[(_ & _ & ->)|(room & Hget & Hcase)]]; [by apply Hstop|done|].
  destruct Hcase as [([data ->] & _)|[(data & i & -> & Hacc & _)
                                      |[[-> _]|(_ & _ & ->)]]].
  - by destruct Hev.
  - destruct Hacc as (_ & Hact & _). rewrite (Hstop _ Hget) in Hact. done.
  - by destruct Hev.
  - done.
Qed.

(** A room with both its participants keeps them until one of them
    disconnects. *)
Lemma handle_keeps_players rooms socketId ev res k (ps : list string) :
  store_ok rooms →
  (∃ room, rooms_get rooms k = Some room ∧ players room = ps) →
  (2 ≤ length ps)%nat →
  (ev = Disconnect → socketId ∉ ps) →
  handle rooms socketId ev = Some res →
  ∃ room, rooms_get (r_rooms res) k = Some room ∧ players room = ps.
Proof.
  intros Hok (room & Hget & Hps) Htwo Hstay Hh.
  destruct (handle_keeps_room rooms socketId ev res k room Hok) as [room' Hget'];
    [by rewrite Hps|done|done|].
  exists room'. split; [done|].
  destruct (handle_room_at _ _ _ _ _ _ Hok Hh Hget')
    as [Hsame|[(Hnone & _)|(room0 & Hget0 & Hcase)]]; [congruence|congruence|].
  assert (room0 = room) as -> by congruence.
  destruct Hcase as [(_ & Hfew & _)|[(data & i & _ & _ & ->)
                                     |[[_ ->]|(-> & Hp & _)]]].
  - rewrite Hps in Hfew. lia.
  - done.
  - done.
  - destruct (Hstay eq_refl). by rewrite <- Hps.
Qed.
End Runs.

(** ** The end of a game *)

(** X5. What an accepted move leaves in the store and announces: the
    room stored under the same key holds the board with the cell
    written; while [checkWinner] finds that board undecided the game
    of the room is active and the message is a [moveMade] with the
    board, the turn and the move; otherwise the game of the room is
    stopped and the message is a [gameEnd] with the board and the
    verdict, and then, whatever events follow, as long as none of them
    is a join or a new game, a move of any socket found in the room
    under that key is answered [GameNotActive]. *)
Theorem move_outcome (rooms : list (string * Room)) socketId data k room i :
  store_ok rooms →
  move_accepted rooms socketId data k room i →
  ∃ room',
    rooms_get (r_rooms (on_makeMove rooms socketId data)) k = Some room'
    ∧ board room' = <[i := Some (currentPlayer room)]> (board room)
    ∧ (checkWinner (board room') = InProgress →
       gameActive room' = true
       ∧ ∃ v, js_get data "cellIndex" = Ok v
              ∧ r_out (on_makeMove rooms socketId data)
                = [IoToEmit k
                     (EvMoveMade (board room') (currentPlayer room') v
                        (currentPlayer room))])
    ∧ (checkWinner (board room') ≠ InProgress →
       gameActive room' = false
       ∧ (∃ message,
            r_out (on_makeMove rooms socketId data)
            = [IoToEmit k
                 (EvGameEnd (board room') (checkWinner (board room'))
                    message)])
       ∧ ∀ evs rooms2 out mover data' room2,
           Forall (λ e, event_ok e.2 ∧ ¬ restarts e.2) evs →
           run (r_rooms (on_makeMove rooms socketId data)) evs
           = Some (rooms2, out) →
           findPlayerRoom rooms2 mover = Some (k, room2) →
           on_makeMove rooms2 mover data'
           = mkResult rooms2 [SocketEmit mover (EvError GameNotActive)]
               Returned).
Proof.
  intros Hok Hacc.
  pose proof (on_makeMove_ok rooms socketId data Hok) as Hok1.
  pose proof (accepted_move_room _ _ _ _ _ _ Hacc) as Hroom1.
  destruct Hacc as (Hfind & Hact & Hsym & (v & Hget & Hidx) & Hle & Hcell).
  destruct (found_rooms_get _ _ _ _ Hok Hfind) as (_ & Hcode & _).
  assert (Hout : r_out (on_makeMove rooms socketId data)
                 = match checkWinner (board (moved room i)) with
                   | InProgress =>
                       [IoToEmit k
                          (EvMoveMade (board (moved room i))
                             (other_marker (currentPlayer room)) v
                             (currentPlayer room))]
                   | w =>
                       [IoToEmit k
                          (EvGameEnd (board (moved room i)) w
                             match w with
                             | Win m => marker_name m +:+ " ha vinto!"
                             | _ => "Pareggio!"
                             end)]
                   end).
  { unfold on_makeMove.
    rewrite Hfind, Hact, Hget, Hsym, (array_index_printable _ _ Hidx), Hidx,
      Hcell.
    cbn [negb]. rewrite bool_decide_eq_false_2 by (intros H; by apply H).
    rewrite (proj2 (Nat.ltb_ge 8 i)) by lia.
    rewrite bool_decide_eq_false_2 by (intros H; by apply H). cbn [orb].
    cbn [moved board]. rewrite Hcode. by destruct (checkWinner _). }
  exists (moved room i). split; [done|]. split; [done|]. split.
  - intros Hv. rewrite Hout, Hv. cbn [moved gameActive board currentPlayer] in *.
    rewrite Hv. split; [done|]. by exists v.
  - intros Hv. rewrite Hout.
    assert (Hstop : gameActive (moved room i) = false).
    { cbn [moved gameActive board] in *. by destruct (checkWinner _). }
    split; [done|]. split.
    + destruct (checkWinner (board (moved room i))); [by eexists|by eexists|done].
    + intros evs rooms2 out mover data' room2 Hevs Hrun Hfind2.
      assert (Hstopped1 : ∀ r,
                 rooms_get (r_rooms (on_makeMove rooms socketId data)) k
                 = Some r → gameActive r = false).
      { intros r Hr. rewrite Hroom1 in Hr. by injection Hr as <-. }
      destruct (run_inv
                  (λ rs, ∀ r, rooms_get rs k = Some r → gameActive r = false)
                  (λ _ ev, ¬ restarts ev) _ _ _ _
                  (λ rooms0 s ev res H0 HI Hev Hh,
                     handle_stays_stopped rooms0 s ev res k H0 HI Hev Hh)
                  Hok1 Hstopped1 Hevs Hrun)
        as [Hok2 Hstopped].
      destruct (found_rooms_get _ _ _ _ Hok2 Hfind2) as (Hget2 & _).
      unfold on_makeMove. by rewrite Hfind2, (Hstopped _ Hget2).
Qed.

Lemma move_outcome_witness :
  on_makeMove store_won "b" (move_payload 5)
  = mkResult store_won [SocketEmit "b" (EvError GameNotActive)] Returned.
Proof.
  destruct (move_outcome
              (r_rooms
                 (on_makeMove
                    (r_rooms (on_makeMove store_answered "a" (move_payload 1)))
                    "b" (move_payload 4)))
              "a" (move_payload 2) "ABCDEF"
              (moved (moved (moved (moved room_started 0) 3) 1) 4) 2)
    as (room' & _ & Hboard & _ & Hend).
  - compute_done.
  - split; [reflexivity|]. split; [reflexivity|]. split; [reflexivity|].
    split; [exists (JNum 2); split; reflexivity|].
    split; [lia|reflexivity].
  - destruct Hend as (_ & _ & Hlater).
    + rewrite Hboard. intros Hv. vm_compute in Hv. discriminate Hv.
    + apply (Hlater [] store_won [] "b" (move_payload 5) room_won).
      * constructor.
      * reflexivity.
      * reflexivity.
Defined.

(** X6. In a store the server can reach, a participant who is alone in
    its room can neither play nor start a new game: whatever the
    payload, a move is answered [GameNotActive], and a new-game request
    [InsufficientPlayers]; the store stays as it was. *)
Theorem lone_participant_waits (rooms : list (string * Room)) socketId k room :
  reachable rooms →
  findPlayerRoom rooms socketId = Some (k, room) →
  length (players room) = 1%nat →
  (∀ data,
     on_makeMove rooms socketId data
     = mkResult rooms [SocketEmit socketId (EvError GameNotActive)] Returned)
  ∧ on_newGame rooms socketId
    = mkResult rooms [SocketEmit socketId (EvError InsufficientPlayers)]
        Returned.
Proof.
  intros Hreach Hfind Hone.
  destruct (found_rooms_get _ _ _ _ (reachable_ok _ Hreach) Hfind) as (Hget & _).
  destruct (reachable_room_ok _ _ _ Hreach Hget) as (_ & _ & Hact & _).
  assert (Hoff : gameActive room = false).
  { destruct (gameActive room); [|done]. specialize (Hact eq_refl). lia. }
  split.
  - intros data. unfold on_makeMove. by rewrite Hfind, Hoff.
  - unfold on_newGame. rewrite Hfind, Hone. by rewrite bool_decide_eq_true_2.
Qed.

Lemma lone_participant_waits_witness :
  (∀ data,
     on_makeMove store_created "a" data
     = mkResult store_created [SocketEmit "a" (EvError GameNotActive)] Returned)
  ∧ on_newGame store_created "a"
    = mkResult store_created [SocketEmit "a" (EvError InsufficientPlayers)]
        Returned.
Proof.
  apply (lone_participant_waits store_created "a" "ABCDEF"
           (fresh_room "ABCDEF" "a")).
  - apply store_created_reachable.
  - reflexivity.
  - reflexivity.
Defined.

(** ** The generator and its candidates *)

Section Candidates.
Implicit Types (rooms : list (string * Room)) (draws : list nat).

Lemma generate_loop_candidates fuel rooms draws :
  fst <$> generate_loop fuel rooms draws
  = head (filter (λ c, c ∉ rooms.*1) (candidates_loop fuel draws)).
Proof.
  revert draws. induction fuel as [|fuel IH]; intros draws; [done|].
  cbn [generate_loop candidates_loop].
  destruct (build_code 6 "" draws) as [[c rest]|]; [|done].
  destruct (rooms_has rooms c) eqn:Hhas.
  - apply rooms_has_true in Hhas.
    rewrite filter_cons_False by (intros H; by apply H). apply IH.
  - apply rooms_has_false in Hhas. by rewrite filter_cons_True.
Qed.
End Candidates.

(** X7. [generateRoomCode] returns the first of the codes spelled by the
    random source, six draws each, that is not a key of the store; it
    does not return among the given draws exactly when each of those
    codes is a key (in particular when fewer than six draws are given). *)
Theorem generateRoomCode_first_fresh (rooms : list (string * Room))
    (draws : list nat) :
  fst <$> generateRoomCode rooms draws
  = head (filter (λ c, c ∉ rooms.*1) (candidates draws))
  ∧ (generateRoomCode rooms draws = None
     ↔ ∀ c, c ∈ candidates draws → c ∈ rooms.*1).
Proof.
  assert (Heq : fst <$> generateRoomCode rooms draws
                = head (filter (λ c, c ∉ rooms.*1) (candidates draws)))
    by apply generate_loop_candidates.
  split; [done|].
  destruct (generateRoomCode rooms draws) as [[c rest]|]; simpl in Heq.
  - split; [done|]. intros Hall. symmetry in Heq.
    apply head_Some_elem_of in Heq.
    apply list_elem_of_filter in Heq as [Hfresh Hin]. destruct Hfresh. by apply Hall.
  - split; [|done]. intros _ c Hin.
    destruct (decide (c ∈ rooms.*1)) as [|Hfresh]; [done|].
    symmetry in Heq. apply head_None in Heq.
    assert (Hc : c ∈ filter (λ c, c ∉ rooms.*1) (candidates draws))
      by by apply list_elem_of_filter.
    rewrite Heq in Hc. by apply elem_of_nil in Hc.
Qed.

Lemma generateRoomCode_first_fresh_witness :
  fst <$> generateRoomCode store_created
            [0; 1; 2; 3; 4; 5; 6; 7; 8; 9; 10; 11]%nat
  = Some "GHIJKL".
Proof.
  rewrite (proj1 (generateRoomCode_first_fresh store_created
                    [0; 1; 2; 3; 4; 5; 6; 7; 8; 9; 10; 11]%nat)).
  reflexivity.
Defined.

(** ** Creating and finding rooms *)

Section Finding.
Implicit Types (rooms : list (string * Room)) (k socketId : string)
  (room : Room).

Lemma findPlayerRoom_app (l1 l2 : list (string * Room)) socketId :
  findPlayerRoom (l1 ++ l2) socketId
  = match findPlayerRoom l1 socketId with
    | Some found => Some found
    | None => findPlayerRoom l2 socketId
    end.
Proof.
  induction l1 as [|[k room] l1 IH]; [done|]. simpl.
  by destruct (bool_decide (socketId ∈ players room)).
Qed.
End Finding.

(** X8. When a socket that is in no room creates one, with draws below
    [chars.length], and the generator returns: the socket joins the
    channel of the new code and is told that code and the symbol ['X'];
    the code is a valid one that was not in use; the store has one more
    room; the new room is found by [getRoom] under the code in any
    letter case and by [findPlayerRoom] for the creator; every other
    key and every other socket is looked up as before. *)
Theorem createRoom_then_found (rooms : list (string * Room)) socketId draws res :
  store_ok rooms →
  draws_ok draws →
  socketId ∉ all_players rooms →
  on_createRoom rooms socketId draws = Some res →
  ∃ c,
    r_out res = [SocketJoin socketId c; SocketEmit socketId (EvRoomCreated c X)]
    ∧ r_end res = Returned
    ∧ valid_code c
    ∧ (c ∉ rooms.*1)
    ∧ length (r_rooms res) = S (length rooms)
    ∧ (∀ s, toUpperCase s = c →
            getRoom (r_rooms res) s = Some (fresh_room c socketId))
    ∧ findPlayerRoom (r_rooms res) socketId = Some (c, fresh_room c socketId)
    ∧ (∀ k, k ≠ c → rooms_get (r_rooms res) k = rooms_get rooms k)
    ∧ (∀ p, p ≠ socketId →
            findPlayerRoom (r_rooms res) p = findPlayerRoom rooms p).
Proof.
  intros Hok Hdraws Hnot Hcreate.
  pose proof Hnot as Hfind. apply findPlayerRoom_None_all in Hfind.
  unfold on_createRoom, createRoom in Hcreate. rewrite Hfind in Hcreate.
  destruct (generateRoomCode rooms draws) as [[c rest]|] eqn:Hgen; [|done].
  injection Hcreate as <-. cbn [r_out r_end r_rooms code].
  destruct (generate_loop_spec _ _ _ _ _ Hdraws Hgen) as [Hvalid Hfresh].
  fold (fresh_room c socketId).
  exists c. split; [done|]. split; [done|]. split; [done|]. split; [done|].
  split; [|split; [|split; [|split]]].
  - rewrite rooms_set_fresh, length_app by done. simpl. lia.
  - intros s <-. unfold getRoom. rewrite rooms_get_set.
    by rewrite decide_True.
  - rewrite rooms_set_fresh, findPlayerRoom_app, Hfind by done. simpl.
    rewrite bool_decide_eq_true_2; [done|by left].
  - intros k Hne. rewrite rooms_get_set. by rewrite decide_False.
  - intros p Hne. rewrite rooms_set_fresh, findPlayerRoom_app by done.
    destruct (findPlayerRoom rooms p); [done|]. simpl.
    rewrite bool_decide_eq_false_2; [done|].
    intros Hin%list_elem_of_singleton. done.
Qed.

Lemma createRoom_then_found_witness :
  ∃ c,
    r_out (mkResult store_created
             [SocketJoin "a" "ABCDEF";
              SocketEmit "a" (EvRoomCreated "ABCDEF" X)] Returned)
    = [SocketJoin "a" c; SocketEmit "a" (EvRoomCreated c X)]
    ∧ r_end (mkResult store_created
               [SocketJoin "a" "ABCDEF";
                SocketEmit "a" (EvRoomCreated "ABCDEF" X)] Returned)
      = Returned
    ∧ valid_code c
    ∧ (c ∉ (@nil (string * Room)).*1)
    ∧ length store_created = S (length (@nil (string * Room)))
    ∧ (∀ s, toUpperCase s = c →
            getRoom store_created s = Some (fresh_room c "a"))
    ∧ findPlayerRoom store_created "a" = Some (c, fresh_room c "a")
    ∧ (∀ k, k ≠ c → rooms_get store_created k = rooms_get [] k)
    ∧ (∀ p, p ≠ "a" → findPlayerRoom store_created p = findPlayerRoom [] p).
Proof.
  apply (createRoom_then_found [] "a" [0; 1; 2; 3; 4; 5]%nat
           (mkResult store_created
              [SocketJoin "a" "ABCDEF";
               SocketEmit "a" (EvRoomCreated "ABCDEF" X)] Returned)).
  - compute_done.
  - unfold draws_ok. repeat constructor.
  - compute_done.
  - reflexivity.
Defined.

(** X9. In a store with the invariant of the reachable ones,
    [findPlayerRoom] is the inverse of membership: it returns the room
    stored at [k] exactly when that room lists the socket, that room is
    then the only one to list it, and it returns [null] exactly when no
    room lists the socket. *)
Theorem findPlayerRoom_spec (rooms : list (string * Room)) socketId :
  store_ok rooms →
  (∀ k room,
     findPlayerRoom rooms socketId = Some (k, room)
     ↔ rooms_get rooms k = Some room ∧ socketId ∈ players room)
  ∧ (∀ k k' room room',
       rooms_get rooms k = Some room → socketId ∈ players room →
       rooms_get rooms k' = Some room' → socketId ∈ players room' →
       k = k')
  ∧ (findPlayerRoom rooms socketId = None
     ↔ ∀ k room, rooms_get rooms k = Some room → socketId ∉ players room).
Proof.
  intros Hok.
  assert (Hiff : ∀ k room,
             findPlayerRoom rooms socketId = Some (k, room)
             ↔ rooms_get rooms k = Some room ∧ socketId ∈ players room).
  { intros k room. split.
    - intros Hfind. by destruct (found_rooms_get _ _ _ _ Hok Hfind) as (? & _ & ?).
    - intros [Hget Hp]. apply findPlayerRoom_unique; [|by apply rooms_get_Some_elem_of|done].
      by destruct Hok as (_ & _ & ?). }
  split; [done|]. split.
  - intros k k' room room' Hget Hp Hget' Hp'.
    assert (H1 := proj2 (Hiff k room) (conj Hget Hp)).
    assert (H2 := proj2 (Hiff k' room') (conj Hget' Hp')). congruence.
  - rewrite findPlayerRoom_None. split.
    + intros Hnone k room Hget%rooms_get_Some_elem_of. by eapply Hnone.
    + intros Hnone k room Hin. apply (Hnone k).
      by apply rooms_get_elem_of; [apply store_ok_keys|].
Qed.

Lemma findPlayerRoom_spec_witness :
  findPlayerRoom store_started "b" = Some ("ABCDEF", room_started).
Proof.
  apply (proj1 (findPlayerRoom_spec store_started "b" ltac:(compute_done))
           "ABCDEF" room_started).
  split; [reflexivity|compute_done].
Defined.

(** X10. In a store the server can reach, [getRoom] looks a room up by
    its code in any letter case: the room it returns has the upper-cased
    argument as its code, a valid one, and a room is returned for every
    spelling of its code. Joining behaves the same for two spellings of
    the same code. *)
Theorem getRoom_any_case (rooms : list (string * Room)) :
  reachable rooms →
  (∀ s room,
     getRoom rooms s = Some room →
     code room = toUpperCase s ∧ valid_code (code room))
  ∧ (∀ k room s,
       rooms_get rooms k = Some room → toUpperCase s = k →
       getRoom rooms s = Some room)
  ∧ (∀ s1 s2 socketId,
       toUpperCase s1 = toUpperCase s2 →
       on_joinRoom rooms socketId (join_payload s1)
       = on_joinRoom rooms socketId (join_payload s2)).
Proof.
  intros Hok%reachable_ok. split; [|split].
  - intros s room Hget%rooms_get_Some_elem_of.
    destruct (store_ok_code _ _ _ Hok Hget) as [-> Hvalid]. done.
  - intros k room s Hget <-. done.
  - intros s1 s2 socketId Heq. unfold on_joinRoom.
    change (roomCode_toUpperCase (join_payload s1))
      with (Ok (Some (toUpperCase s1))).
    change (roomCode_toUpperCase (join_payload s2))
      with (Ok (Some (toUpperCase s2))).
    by rewrite Heq.
Qed.

Lemma getRoom_any_case_witness :
  getRoom store_started "AbCdEf" = Some room_started.
Proof.
  apply (proj1 (proj2 (getRoom_any_case store_started store_started_reachable))
           "ABCDEF" room_started "AbCdEf"); reflexivity.
Defined.

(** ** The room count of the health check *)

Section Counting.
Implicit Types (rooms : list (string * Room)).

Lemma all_players_length rooms :
  Forall (λ kv, 1 ≤ length (players kv.2) ≤ 2)%nat rooms →
  (length rooms ≤ length (all_players rooms) ≤ 2 * length rooms)%nat.
Proof.
  induction 1 as [|[k room] rooms Hroom _ IH]; [simpl; lia|].
  rewrite all_players_cons, length_app. simpl in *. lia.
Qed.
End Counting.

(** X11. The number of rooms the health check reports is the number of
    distinct codes in use. In a store the server can reach it is at most
    the number of sockets that are in a room, and at least half of it;
    and an event changes it by at most one. *)
Theorem health_rooms_size (rooms : list (string * Room)) :
  reachable rooms →
  rooms_size (health rooms) = size (list_to_set (C := gset string) rooms.*1)
  ∧ (rooms_size (health rooms) ≤ length (all_players rooms)
     ≤ 2 * rooms_size (health rooms))%nat
  ∧ (∀ socketId ev res,
       handle rooms socketId ev = Some res →
       rooms_size (health (r_rooms res)) = rooms_size (health rooms)
       ∨ rooms_size (health (r_rooms res)) = S (rooms_size (health rooms))
       ∨ S (rooms_size (health (r_rooms res))) = rooms_size (health rooms)).
Proof.
  intros Hreach. pose proof (reachable_ok _ Hreach) as Hok.
  cbn [health rooms_size]. split; [|split].
  - rewrite size_list_to_set by apply Hok. by rewrite length_fmap.
  - apply all_players_length.
    pose proof (reachable_rooms_inv room_ok rooms room_ok_fresh
                  (λ s r r' Hr Hs, room_ok_step s r r' Hr Hs) Hreach) as Hall.
    eapply Forall_impl; [exact Hall|]. by intros kv (_ & ? & _).
  - intros socketId ev res Hh.
    destruct (handle_shape _ _ _ _ Hok Hh)
      as [->|[(c & _ & _ & ->)|[(pre & k & room & post & room' & -> & _ & ->)
                                |(pre & k & room & post & -> & _ & _ & ->)]]].
    + by left.
    + right. left. rewrite length_app. simpl. lia.
    + left. by rewrite !length_app.
    + right. right. rewrite !length_app. simpl. lia.
Qed.

Lemma health_rooms_size_witness :
  rooms_size (health store_started)
  = size (list_to_set (C := gset string) store_started.*1)
  ∧ (rooms_size (health store_started) ≤ length (all_players store_started)
     ≤ 2 * rooms_size (health store_started))%nat
  ∧ (∀ socketId ev res,
       handle store_started socketId ev = Some res →
       rooms_size (health (r_rooms res)) = rooms_size (health store_started)
       ∨ rooms_size (health (r_rooms res))
         = S (rooms_size (health store_started))
       ∨ S (rooms_size (health (r_rooms res)))
         = rooms_size (health store_started)).
Proof. apply (health_rooms_size store_started store_started_reachable). Defined.

(** ** Who a message goes to *)

Section Audience.
Implicit Types (rooms : list (string * Room)) (k socketId : string)
  (room : Room).

Lemma errors_private_reply rooms socketId message :
  errors_private rooms socketId (reply_error rooms socketId message).
Proof.
  unfold errors_private, reply_error. cbn [r_out r_end r_rooms].
  split; [|split].
  - intros c m Hin%list_elem_of_singleton. done.
  - intros s m Hin%list_elem_of_singleton. by injection Hin as -> ->.
  - done.
Qed.

Lemma errors_private_threw rooms socketId e :
  errors_private rooms socketId (mkResult rooms [] (Threw e)).
Proof.
  unfold errors_private. cbn [r_out r_end r_rooms]. split; [|split]; [| |done].
  - intros c m Hin. by apply elem_of_nil in Hin.
  - intros s m Hin. by apply elem_of_nil in Hin.
Qed.

Lemma errors_private_none rooms rooms' socketId out :
  Forall (λ a, ¬ is_error a) out →
  errors_private rooms socketId (mkResult rooms' out Returned).
Proof.
  intros Hall. rewrite Forall_forall in Hall.
  unfold errors_private. cbn [r_out r_end r_rooms]. split; [|split]; [| |done].
  - intros c m Hin. by apply (Hall _ Hin).
  - intros s m Hin. by destruct (Hall _ Hin).
Qed.

End Audience.

(** X12. Whatever the event, an [error] is never sent to a channel; an
    [error] sent to a socket goes to the requester, is the only message
    of the handler, and the store is then the one before the event; and
    a handler that throws has sent nothing and changed nothing. *)
Theorem errors_go_to_requester (rooms : list (string * Room)) socketId ev res :
  handle rooms socketId ev = Some res →
  (∀ c message, IoToEmit c (EvError message) ∉ r_out res)
  ∧ (∀ s message,
       SocketEmit s (EvError message) ∈ r_out res →
       s = socketId
       ∧ r_out res = [SocketEmit socketId (EvError message)]
       ∧ r_rooms res = rooms
       ∧ r_end res = Returned)
  ∧ (∀ e, r_end res = Threw e → r_out res = [] ∧ r_rooms res = rooms).
Proof.
  change (handle rooms socketId ev = Some res →
          errors_private rooms socketId res).
  destruct ev as [draws|data|data| |]; simpl.
  - unfold on_createRoom.
    destruct (findPlayerRoom rooms socketId);
      [intros [= <-]; apply errors_private_reply|].
    destruct (createRoom rooms socketId draws) as [[rooms' room]|]; [|done].
    intros [= <-]. apply errors_private_none.
    repeat constructor; by intros [].
  - intros [= <-]. unfold on_joinRoom.
    destruct (roomCode_toUpperCase data) as [[c|]|e];
      [|apply errors_private_reply|apply errors_private_threw].
    destruct (_ || _); [apply errors_private_reply|].
    destruct (getRoom rooms c) as [room|]; [|apply errors_private_reply].
    destruct (2 <=? _)%nat; [apply errors_private_reply|].
    destruct (findPlayerRoom rooms socketId); [apply errors_private_reply|].
    apply errors_private_none. repeat constructor; by intros [].
  - intros [= <-].
    destruct (on_makeMove_cases rooms socketId data)
      as [(k & room & i & Hacc)|[(message & -> & _)| ->]];
      [|apply errors_private_reply|apply errors_private_threw].
    destruct (on_makeMove_accepted _ _ _ _ _ _ Hacc)
      as (Hrooms & Hend & ev & Hout & Hev).
    destruct (on_makeMove rooms socketId data) as [rooms' out ending].
    cbn [r_rooms r_out r_end] in *. subst. apply errors_private_none.
    apply Forall_singleton. destruct ev; try by intros [].
    by destruct (Hev message).
  - intros [= <-]. unfold on_newGame.
    destruct (findPlayerRoom rooms socketId) as [[k room]|];
      [|apply errors_private_reply].
    destruct (bool_decide _); [apply errors_private_reply|].
    apply errors_private_none. apply Forall_singleton. by intros [].
  - intros [= <-]. unfold on_disconnect.
    destruct (findPlayerRoom rooms socketId) as [[k room]|];
      [|by apply errors_private_none].
    destruct (bool_decide _);
      apply errors_private_none; apply Forall_singleton; by intros [].
Qed.

Lemma errors_go_to_requester_witness :
  errors_private store_started "b"
    (on_makeMove store_started "b" (move_payload 0)).
Proof.
  apply (errors_go_to_requester store_started "b" (MakeMove (move_payload 0))).
  reflexivity.
Defined.

(** X13. In a store with the invariant of the reachable ones, a handler
    talks to the requester and to the requester's room only: it joins
    no other socket to a channel and sends to no other socket; the
    channel it joins the requester to is the code of a room that lists
    the requester afterwards; and a message to a channel goes to the
    code of a room that lists the requester before the event or after
    it. *)
Theorem messages_stay_in_room (rooms : list (string * Room)) socketId ev res :
  store_ok rooms →
  handle rooms socketId ev = Some res →
  (∀ s c,
     SocketJoin s c ∈ r_out res →
     s = socketId
     ∧ ∃ room, rooms_get (r_rooms res) c = Some room ∧ socketId ∈ players room)
  ∧ (∀ s e, SocketEmit s e ∈ r_out res → s = socketId)
  ∧ (∀ c e,
       IoToEmit c e ∈ r_out res →
       ∃ room,
         (rooms_get rooms c = Some room ∨ rooms_get (r_rooms res) c = Some room)
         ∧ socketId ∈ players room).
Proof.
  intros Hok. destruct ev as [draws|data|data| |]; simpl.
  - unfold on_createRoom, createRoom.
    destruct (findPlayerRoom rooms socketId).
    { intros [= <-]. cbn [reply_error r_out].
      split; [|split]; intros ? ? Hin%list_elem_of_singleton; by simplify_eq. }
    destruct (generateRoomCode rooms draws) as [[c rest]|]; [|done].
    intros [= <-]. cbn [r_out r_rooms code]. split; [|split].
    + intros s c' [Heq|Hin%list_elem_of_singleton]%elem_of_cons; [|done].
      injection Heq as -> ->. split; [done|]. eexists.
      rewrite rooms_get_set, decide_True by done. split; [done|].
      cbn [players]. by left.
    + intros s e [Heq|Hin%list_elem_of_singleton]%elem_of_cons; by simplify_eq.
    + intros c' e [Heq|Hin%list_elem_of_singleton]%elem_of_cons; by simplify_eq.
  - intros [= <-]. unfold on_joinRoom.
    assert (Hreply : ∀ message,
              (∀ s c,
                 SocketJoin s c ∈ r_out (reply_error rooms socketId message) →
                 s = socketId
                 ∧ ∃ room,
                     rooms_get (r_rooms (reply_error rooms socketId message)) c
                     = Some room ∧ socketId ∈ players room)
              ∧ (∀ s e,
                   SocketEmit s e ∈ r_out (reply_error rooms socketId message) →
                   s = socketId)
              ∧ (∀ c e,
                   IoToEmit c e ∈ r_out (reply_error rooms socketId message) →
                   ∃ room,
                     (rooms_get rooms c = Some room
                      ∨ rooms_get (r_rooms (reply_error rooms socketId message)) c
                        = Some room)
                     ∧ socketId ∈ players room)).
    { intros message. cbn [reply_error r_out].
      split; [|split]; intros ? ? Hin%list_elem_of_singleton; by simplify_eq. }
    destruct (roomCode_toUpperCase data) as [[c|]|e]; [|apply Hreply|].
    2:{ cbn [r_out]. split; [|split]; intros ? ? Hin; by apply elem_of_nil in Hin. }
    destruct (_ || _); [apply Hreply|]. unfold getRoom.
    destruct (rooms_get rooms (toUpperCase c)) as [room|] eqn:Hget;
      [|apply Hreply].
    destruct (2 <=? _)%nat; [apply Hreply|].
    destruct (findPlayerRoom rooms socketId); [apply Hreply|].
    cbn [r_out r_rooms code players].
    apply rooms_get_Some_elem_of in Hget as Hin.
    destruct (store_ok_code _ _ _ Hok Hin) as [Hcode _].
    assert (Hafter : ∃ room',
               rooms_get
                 (rooms_set rooms (toUpperCase c)
                    {| code := code room;
                       players := players room ++ [socketId];
                       board := board room;
                       currentPlayer := currentPlayer room;
                       gameActive := true;
                       symbols := <[socketId:=O]> (symbols room) |})
                 (code room) = Some room'
               ∧ socketId ∈ players room').
    { eexists. rewrite rooms_get_set, decide_True by done. split; [done|].
      cbn [players]. apply elem_of_app. right. by left. }
    split; [|split].
    + intros s c' Hin'. rewrite !elem_of_cons in Hin'.
      destruct Hin' as [Heq|[Heq|[Heq|Hnil]]]; simplify_eq; [|by apply elem_of_nil in Hnil].
      by split.
    + intros s e Hin'. rewrite !elem_of_cons in Hin'.
      destruct Hin' as [Heq|[Heq|[Heq|Hnil]]]; simplify_eq; [done|by apply elem_of_nil in Hnil].
    + intros c' e Hin'. rewrite !elem_of_cons in Hin'.
      destruct Hin' as [Heq|[Heq|[Heq|Hnil]]]; simplify_eq; [|by apply elem_of_nil in Hnil].
      destruct Hafter as (room' & Hget' & Hp'). exists room'. split; [by right|done].
  - intros [= <-].
    destruct (on_makeMove_cases rooms socketId data)
      as [(k & room & i & Hacc)|[(message & -> & _)| ->]].
    + destruct (on_makeMove_accepted _ _ _ _ _ _ Hacc)
        as (_ & _ & ev & -> & _).
      destruct Hacc as (Hfind & _).
      destruct (found_rooms_get _ _ _ _ Hok Hfind) as (Hget & Hcode & Hp).
      split; [|split]; intros ? ? Hin%list_elem_of_singleton; simplify_eq.
      exists room. split; [by left|done].
    + cbn [reply_error r_out].
      split; [|split]; intros ? ? Hin%list_elem_of_singleton; by simplify_eq.
    + cbn [r_out]. split; [|split]; intros ? ? Hin; by apply elem_of_nil in Hin.
  - intros [= <-]. unfold on_newGame.
    destruct (findPlayerRoom rooms socketId) as [[k room]|] eqn:Hfind.
    2:{ cbn [reply_error r_out].
        split; [|split]; intros ? ? Hin%list_elem_of_singleton; by simplify_eq. }
    destruct (bool_decide _).
    { cbn [reply_error r_out].
      split; [|split]; intros ? ? Hin%list_elem_of_singleton; by simplify_eq. }
    destruct (found_rooms_get _ _ _ _ Hok Hfind) as (Hget & Hcode & Hp).
    cbn [r_out resetGame code].
    split; [|split]; intros ? ? Hin%list_elem_of_singleton; simplify_eq.
    exists room. split; [by left|done].
  - intros [= <-].
    destruct (findPlayerRoom rooms socketId) as [[k room]|] eqn:Hfind.
    2:{ unfold on_disconnect. rewrite Hfind. cbn [r_out].
        split; [|split]; intros ? ? Hin; by apply elem_of_nil in Hin. }
    rewrite (on_disconnect_found _ _ _ _ Hok Hfind). cbn [r_out].
    destruct (found_rooms_get _ _ _ _ Hok Hfind) as (Hget & Hcode & Hp).
    split; [|split]; intros ? ? Hin%list_elem_of_singleton; simplify_eq.
    exists room. split; [by left|done].
Qed.

Lemma messages_stay_in_room_witness :
  (∀ s c,
     SocketJoin s c ∈ r_out (on_joinRoom store_created "b" (join_payload "abcdef")) →
     s = "b"
     ∧ ∃ room, rooms_get store_started c = Some room ∧ "b" ∈ players room)
  ∧ (∀ s e,
       SocketEmit s e
       ∈ r_out (on_joinRoom store_created "b" (join_payload "abcdef")) →
       s = "b")
  ∧ (∀ c e,
       IoToEmit c e
       ∈ r_out (on_joinRoom store_created "b" (join_payload "abcdef")) →
       ∃ room,
         (rooms_get store_created c = Some room
          ∨ rooms_get store_started c = Some room)
         ∧ "b" ∈ players room).
Proof.
  apply (messages_stay_in_room store_created "b"
           (JoinRoom (join_payload "abcdef"))
           (on_joinRoom store_created "b" (join_payload "abcdef"))).
  - compute_done.
  - reflexivity.
Defined.

(** ** Coming and going *)

Section RoundTrips.
Implicit Types (rooms : list (string * Room)) (k socketId : string)
  (room : Room).

Lemma rooms_set_set rooms k v v' :
  rooms_set (rooms_set rooms k v) k v' = rooms_set rooms k v'.
Proof.
  induction rooms as [|[k0 r0] rooms IH]; simpl.
  - by rewrite decide_True.
  - destruct (decide (k0 = k)) as [->|Hne]; simpl.
    + by rewrite decide_True.
    + rewrite decide_False by done. by rewrite IH.
Qed.

Lemma filter_out_appended (l : list string) socketId :
  socketId ∉ l → filter (λ id, id ≠ socketId) (l ++ [socketId]) = l.
Proof.
  intros Hnot. rewrite filter_app, filter_cons_False, filter_nil, app_nil_r
    by (intros H; by apply H).
  induction l as [|x l IH]; [done|].
  apply not_elem_of_cons in Hnot as [Hne Hnot].
  rewrite filter_cons_True by congruence. by rewrite IH.
Qed.
End RoundTrips.

(** X14. Creating a room and disconnecting undoes itself: when a socket
    that is in no room creates a room and then disconnects, the store is
    again the one before the creation, and the only message of the
    disconnection is the notice to the channel of the code that was
    announced. *)
Theorem create_then_disconnect (rooms : list (string * Room)) socketId draws res :
  store_ok rooms →
  draws_ok draws →
  socketId ∉ all_players rooms →
  on_createRoom rooms socketId draws = Some res →
  ∃ c,
    SocketEmit socketId (EvRoomCreated c X) ∈ r_out res
    ∧ on_disconnect (r_rooms res) socketId
      = mkResult rooms [IoToEmit c player_left] Returned.
Proof.
  intros Hok Hdraws Hnot Hcreate.
  pose proof (on_createRoom_ok _ _ _ _ Hok Hdraws Hcreate) as Hok'.
  pose proof Hnot as Hfind. apply findPlayerRoom_None_all in Hfind.
  unfold on_createRoom, createRoom in Hcreate. rewrite Hfind in Hcreate.
  destruct (generateRoomCode rooms draws) as [[c rest]|] eqn:Hgen; [|done].
  injection Hcreate as <-. cbn [r_out r_rooms code] in *.
  fold (fresh_room c socketId) in *.
  apply generate_loop_fresh in Hgen.
  rewrite rooms_set_fresh in * by done.
  exists c. split; [set_solver|].
  assert (Hfind' : findPlayerRoom (rooms ++ [(c, fresh_room c socketId)]) socketId
                   = Some (c, fresh_room c socketId)).
  { rewrite findPlayerRoom_app, Hfind. simpl.
    rewrite bool_decide_eq_true_2; [done|by left]. }
  rewrite (on_disconnect_found _ _ _ _ Hok' Hfind').
  rewrite bool_decide_eq_true_2.
  2:{ cbn [left_by fresh_room players].
      by rewrite filter_cons_False by (intros H; by apply H). }
  rewrite (rooms_set_at rooms c _ []) by done.
  rewrite rooms_delete_at.
  - by rewrite app_nil_r.
  - rewrite fmap_app. simpl. by destruct Hok' as (Hkeys & _); rewrite fmap_app in Hkeys.
Qed.

Lemma create_then_disconnect_witness :
  ∃ c,
    SocketEmit "c" (EvRoomCreated c X)
    ∈ r_out (mkResult
               (store_started ++ [("GHIJKL", fresh_room "GHIJKL" "c")])
               [SocketJoin "c" "GHIJKL";
                SocketEmit "c" (EvRoomCreated "GHIJKL" X)] Returned)
    ∧ on_disconnect
        (r_rooms (mkResult
                    (store_started ++ [("GHIJKL", fresh_room "GHIJKL" "c")])
                    [SocketJoin "c" "GHIJKL";
                     SocketEmit "c" (EvRoomCreated "GHIJKL" X)] Returned)) "c"
      = mkResult store_started [IoToEmit c player_left] Returned.
Proof.
  apply (create_then_disconnect store_started "c"
           [0; 1; 2; 3; 4; 5; 6; 7; 8; 9; 10; 11]%nat).
  - compute_done.
  - unfold draws_ok. repeat constructor.
  - compute_done.
  - reflexivity.
Defined.

(** X15. Joining a room and disconnecting undoes itself but for the
    game being stopped: in a store the server can reach, when a socket
    that is in no room joins a room and then disconnects, the room has
    its participants, symbols, board and turn of before the join and its
    game is not active; the other rooms are untouched. *)
Theorem join_then_disconnect (rooms : list (string * Room)) k room joiner s :
  reachable rooms →
  rooms_get rooms k = Some room →
  (length (players room) < 2)%nat →
  joiner ∉ all_players rooms →
  toUpperCase s = k →
  r_rooms (on_disconnect
             (r_rooms (on_joinRoom rooms joiner (join_payload s))) joiner)
  = rooms_set rooms k (stopped room).
Proof.
  intros Hreach Hget Hfew Hnot Hs.
  pose proof (reachable_ok _ Hreach) as Hok.
  destruct (reachable_room_ok _ _ _ Hreach Hget) as (_ & Hlen & _ & Hsym & _).
  apply rooms_get_Some_elem_of in Hget as Hin.
  destruct (store_ok_code _ _ _ Hok Hin) as [Hcode [Hsix _]].
  assert (Hnotin : joiner ∉ players room).
  { intros Hp. apply Hnot, elem_of_all_players. eauto. }
  rewrite (on_joinRoom_success rooms joiner s room).
  2:{ rewrite <- toUpperCase_length. by rewrite Hs. }
  2:{ by rewrite Hs. }
  2:{ done. }
  2:{ by apply findPlayerRoom_None_all. }
  rewrite Hs. cbn [r_rooms].
  assert (Hok1 : store_ok (rooms_set rooms k (joined room joiner))).
  { pose proof (on_joinRoom_ok rooms joiner (join_payload s) Hok) as H.
    rewrite (on_joinRoom_success rooms joiner s room) in H.
    - by rewrite Hs in H.
    - rewrite <- toUpperCase_length. by rewrite Hs.
    - by rewrite Hs.
    - done.
    - by apply findPlayerRoom_None_all. }
  assert (Hfind1 : findPlayerRoom (rooms_set rooms k (joined room joiner)) joiner
                   = Some (k, joined room joiner)).
  { apply findPlayerRoom_unique; [by destruct Hok1 as (_ & _ & ?)| |].
    - apply rooms_get_Some_elem_of. rewrite rooms_get_set. by rewrite decide_True.
    - cbn [joined players]. apply elem_of_app. right. by left. }
  rewrite (on_disconnect_found _ _ _ _ Hok1 Hfind1). cbn [r_rooms].
  assert (Hleft : left_by (joined room joiner) joiner = stopped room).
  { unfold left_by, joined, stopped. cbn [code players board currentPlayer symbols].
    rewrite filter_out_appended by done.
    rewrite delete_insert_id; [done|].
    apply eq_None_not_Some. intros H. by apply Hnotin, Hsym. }
  rewrite Hleft. rewrite bool_decide_eq_false_2.
  - apply rooms_set_set.
  - cbn [stopped players]. lia.
Qed.

Lemma join_then_disconnect_witness :
  r_rooms (on_disconnect
             (r_rooms (on_joinRoom store_created "b" (join_payload "abcdef")))
             "b")
  = rooms_set store_created "ABCDEF" (stopped (fresh_room "ABCDEF" "a")).
Proof.
  apply (join_then_disconnect store_created "ABCDEF" (fresh_room "ABCDEF" "a")
           "b" "abcdef").
  - apply store_created_reachable.
  - reflexivity.
  - simpl. lia.
  - compute_done.
  - reflexivity.
Defined.

(** ** A game has at most nine moves *)

Section NineMoves.
Implicit Types (rooms : list (string * Room)) (k socketId : string)
  (room : Room) (bd : list (option Marker)).

Lemma occupied_le_length bd : (occupied bd ≤ length bd)%nat.
Proof.
  unfold occupied. induction bd as [|cell bd IH]; [done|].
  rewrite !marks_cons. simpl. destruct cell as [[]|].
  - rewrite decide_True, decide_False by done. lia.
  - rewrite decide_False, decide_True by done. lia.
  - rewrite !decide_False by done. lia.
Qed.

Lemma occupied_moved room i :
  board room !! i = Some None →
  occupied (board (moved room i)) = S (occupied (board room)).
Proof.
  intros Hcell. unfold occupied. cbn [moved board].
  rewrite !(marks_insert _ _ _ _ Hcell).
  destruct (currentPlayer room); simpl; lia.
Qed.

Lemma play_occupied k rooms movers rooms' :
  play k rooms movers rooms' →
  reachable rooms →
  ∀ room,
    rooms_get rooms k = Some room →
    reachable rooms'
    ∧ ∃ room', rooms_get rooms' k = Some room'
               ∧ occupied (board room')
                 = (occupied (board room) + length movers)%nat.
Proof.
  induction 1 as [rooms
                 |rooms socketId data room0 i movers rooms' Hacc Hplay IH
                 |rooms socketId ev res movers rooms' Hev Hevok Hnot Hh Hk Hplay IH];
    intros Hreach room Hget.
  - split; [done|]. exists room. split; [done|simpl; lia].
  - pose proof (reachable_ok _ Hreach) as Hok.
    assert (Hreach1 : reachable (r_rooms (on_makeMove rooms socketId data)))
      by (by eapply (reach_step rooms socketId (MakeMove data))).
    pose proof (accepted_move_room _ _ _ _ _ _ Hacc) as Hroom1.
    destruct (IH Hreach1 _ Hroom1) as (Hreach' & room' & Hget' & Hocc).
    destruct Hacc as (Hfind & _ & _ & _ & _ & Hcell).
    destruct (found_rooms_get _ _ _ _ Hok Hfind) as (Hget0 & _).
    assert (room0 = room) as -> by congruence.
    split; [done|]. exists room'. split; [done|].
    rewrite Hocc, (occupied_moved _ _ Hcell). simpl. lia.
  - pose proof (reachable_ok _ Hreach) as Hok.
    destruct Hk as [room1 Hget1].
    assert (Hreach1 : reachable (r_rooms res)) by (by eapply reach_step).
    destruct (IH Hreach1 _ Hget1) as (Hreach' & room' & Hget' & Hocc).
    destruct (handle_frame _ _ _ _ _ _ _ Hok Hev Hh Hget Hget1)
      as [(data & i & -> & Hacc & _)|[Hsame _]].
    { by destruct (Hnot data room i). }
    split; [done|]. exists room'. split; [done|]. by rewrite Hocc, Hsame.
Qed.
End NineMoves.

(** X16. Without a reset a room accepts at most nine moves: along any
    run from a reachable store during which the room stays in the store,
    and in which no [newGame] is handled, the number of accepted moves
    in the room is at most the number of cells that were empty at the
    start, and each of them fills one more cell. *)
Theorem at_most_nine_moves (rooms rooms' : list (string * Room)) k room movers :
  reachable rooms →
  rooms_get rooms k = Some room →
  play k rooms movers rooms' →
  (occupied (board room) + length movers ≤ 9)%nat
  ∧ ∃ room', rooms_get rooms' k = Some room'
             ∧ occupied (board room')
               = (occupied (board room) + length movers)%nat.
Proof.
  intros Hreach Hget Hplay.
  destruct (play_occupied _ _ _ _ Hplay Hreach _ Hget)
    as (Hreach' & room' & Hget' & Hocc).
  split; [|by exists room'].
  destruct (reachable_room_ok _ _ _ Hreach' Hget') as (Hbd & _).
  pose proof (occupied_le_length (board room')). lia.
Qed.

Lemma at_most_nine_moves_witness :
  (occupied (board room_started) + length [X; O] ≤ 9)%nat
  ∧ ∃ room', rooms_get store_answered "ABCDEF" = Some room'
             ∧ occupied (board room')
               = (occupied (board room_started) + length [X; O])%nat.
Proof.
  apply (at_most_nine_moves store_started store_answered "ABCDEF"
           room_started [X; O]).
  - apply store_started_reachable.
  - reflexivity.
  - apply play_two_moves.
Defined.

(** ** The board engine treats both symbols alike *)

Section Symmetry.
Implicit Types (bd : list (option Marker)).

Lemma swap_board_lookup bd a :
  swap_board bd !! a = swap_cell <$> (bd !! a).
Proof. apply list_lookup_fmap. Qed.

Lemma swap_cell_eq (x y : option (option Marker)) :
  (swap_cell <$> x) = (swap_cell <$> y) ↔ x = y.
Proof.
  split; [|by intros ->].
  destruct x as [[[]|]|], y as [[[]|]|]; simpl; congruence.
Qed.

Lemma scan_combos_swapped bd combos :
  scan_combos (swap_board bd) combos = other_marker <$> scan_combos bd combos.
Proof.
  induction combos as [|[[a b] c] rest IH]; [done|]. cbn [scan_combos].
  rewrite !swap_board_lookup.
  rewrite (bool_decide_ext (swap_cell <$> bd !! a = swap_cell <$> bd !! b)
             (bd !! a = bd !! b)) by apply swap_cell_eq.
  rewrite (bool_decide_ext (swap_cell <$> bd !! a = swap_cell <$> bd !! c)
             (bd !! a = bd !! c)) by apply swap_cell_eq.
  destruct (bd !! a) as [[m|]|]; simpl; try done.
  by destruct (_ && _).
Qed.
End Symmetry.

(** X17. [checkWinner] treats the two symbols alike: on the board with
    every ['X'] and ['O'] exchanged it gives the verdict with the winner
    exchanged -- a win of the other symbol, or again a draw, or again an
    undecided board. *)
Theorem checkWinner_swapped (bd : list Cell) :
  checkWinner (swap_board bd)
  = match checkWinner bd with
    | Win m => Win (other_marker m)
    | Draw => Draw
    | InProgress => InProgress
    end.
Proof.
  unfold checkWinner. rewrite scan_combos_swapped.
  destruct (scan_combos bd WINNING_COMBINATIONS); simpl; [done|].
  assert (Hall : forallb (λ cell : option Marker, bool_decide (cell ≠ None))
                   (swap_board bd)
                 = forallb (λ cell : option Marker, bool_decide (cell ≠ None)) bd).
  { induction bd as [|cell bd IH]; [done|]. simpl. rewrite IH.
    by destruct cell. }
  rewrite Hall. by destruct (forallb _ bd).
Qed.

(** ** Payloads that are objects *)

(** X18. A [makeMove] whose payload is an object throws when the
    requester is in a room whose game is active, its symbol is the one
    to play, and the field [cellIndex] holds a value that cannot be
    converted to a primitive; in every other case it returns. Unless
    the move is accepted the store is the one before. A [joinRoom]
    whose payload is an object without [roomCode], or with [roomCode]
    null, is answered [InvalidCode], and so is one whose [roomCode] is
    an ASCII string that, upper-cased, has not six characters; the
    store is then the one before. *)
Theorem object_payload_outcome (rooms : list (string * Room)) socketId fields :
  ((∃ k room v,
      findPlayerRoom rooms socketId = Some (k, room)
      ∧ gameActive room = true
      ∧ symbols room !! socketId = Some (currentPlayer room)
      ∧ assoc_lookup fields "cellIndex" = Some v
      ∧ unprintable v = true) →
   on_makeMove rooms socketId (JObj fields) = mkResult rooms [] (Threw TypeError))
  ∧ (¬ (∃ k room v,
          findPlayerRoom rooms socketId = Some (k, room)
          ∧ gameActive room = true
          ∧ symbols room !! socketId = Some (currentPlayer room)
          ∧ assoc_lookup fields "cellIndex" = Some v
          ∧ unprintable v = true) →
     r_end (on_makeMove rooms socketId (JObj fields)) = Returned)
  ∧ ((∀ k room i, ¬ move_accepted rooms socketId (JObj fields) k room i) →
     r_rooms (on_makeMove rooms socketId (JObj fields)) = rooms)
  ∧ (assoc_lookup fields "roomCode" = None
     ∨ assoc_lookup fields "roomCode" = Some JUndefined
     ∨ assoc_lookup fields "roomCode" = Some JNull
     ∨ (∃ s, assoc_lookup fields "roomCode" = Some (JStr s)
             ∧ ascii_text s
             ∧ String.length (toUpperCase s) ≠ 6%nat) →
     on_joinRoom rooms socketId (JObj fields)
     = mkResult rooms [SocketEmit socketId (EvError InvalidCode)] Returned).
Proof.
  split; [|split; [|split]].
  - intros (k & room & v & Hfind & Hact & Hsym & Hv & Hun).
    unfold on_makeMove. rewrite Hfind, Hact. cbn [negb js_get].
    rewrite Hv, Hsym. cbn [default from_option id].
    rewrite bool_decide_eq_false_2 by (intros H; by apply H).
    by rewrite Hun.
  - intros Hno.
    destruct (on_makeMove_cases rooms socketId (JObj fields))
      as [(k & room & i & Hacc)|[(message & -> & _)|Hthrew]]; [|done|].
    + by destruct (on_makeMove_accepted _ _ _ _ _ _ Hacc) as (_ & ? & _).
    + destruct Hno. revert Hthrew. unfold on_makeMove.
      destruct (findPlayerRoom rooms socketId) as [[k room]|]; [|done].
      destruct (gameActive room) eqn:Hact; [|done]. cbn [negb js_get].
      destruct (symbols room !! socketId) as [sym|] eqn:Hsym; [|done].
      destruct (bool_decide (sym ≠ currentPlayer room)) eqn:Hturn; [done|].
      apply bool_decide_eq_false in Hturn. apply dec_stable in Hturn as ->.
      destruct (assoc_lookup fields "cellIndex") as [v|] eqn:Hv;
        cbn [default from_option id]; [|done].
      destruct (unprintable v) eqn:Hun; [intros _; by exists k, room, v|].
      destruct (array_index v) as [i|]; [|done].
      destruct (_ || _); [done|]. by destruct (checkWinner _).
  - intros Hnot.
    destruct (on_makeMove_cases rooms socketId (JObj fields))
      as [(k & room & i & Hacc)|[(message & -> & _)| ->]]; [|done|done].
    by destruct (Hnot k room i).
  - intros Hcode. unfold on_joinRoom.
    assert (Hrc : roomCode_toUpperCase (JObj fields) = Ok None
                  ∨ ∃ s, roomCode_toUpperCase (JObj fields)
                         = Ok (Some (toUpperCase s))
                         ∧ String.length (toUpperCase s) ≠ 6%nat).
    { unfold roomCode_toUpperCase, js_get.
      destruct Hcode as [->|[->|[->|(s & -> & _ & Hlen)]]];
        [by left|by left|by left|right; by exists s]. }
    destruct Hrc as [->|(s & -> & Hlen)]; [done|].
    rewrite (bool_decide_eq_true_2 (String.length (toUpperCase s) ≠ 6%nat))
      by done.
    by rewrite orb_true_r.
Qed.

Lemma object_payload_outcome_witness :
  on_makeMove store_started "a" (JObj [("cellIndex", JObj [("toString", JNum 0)])])
  = mkResult store_started [] (Threw TypeError)
  ∧ on_joinRoom store_created "b" (JObj [("roomCode", JStr "abc")])
    = mkResult store_created [SocketEmit "b" (EvError InvalidCode)] Returned.
Proof.
  split.
  - apply (proj1 (object_payload_outcome store_started "a"
                    [("cellIndex", JObj [("toString", JNum 0)])])).
    exists "ABCDEF", room_started, (JObj [("toString", JNum 0)]).
    split; [reflexivity|]. split; [reflexivity|]. split; [reflexivity|].
    split; reflexivity.
  - apply (proj2 (proj2 (proj2 (object_payload_outcome store_created "b"
                                  [("roomCode", JStr "abc")])))).
    right. right. right. exists "abc". split; [reflexivity|].
    split; [unfold ascii_text; compute_done|]. simpl. lia.
Defined.

(** ** A room takes two participants *)

(** X19. In a store the server can reach, once a socket has joined a
    room the room has two participants, and then, whatever events
    follow, as long as neither of the two disconnects, every join with
    the room's code, in any letter case and from any socket, is
    answered [SessionFull] with the store unchanged. *)
Theorem third_join_refused (rooms : list (string * Room)) k room joiner s :
  reachable rooms →
  rooms_get rooms k = Some room →
  (length (players room) < 2)%nat →
  joiner ∉ all_players rooms →
  toUpperCase s = k →
  ∃ room',
    rooms_get (r_rooms (on_joinRoom rooms joiner (join_payload s))) k
    = Some room'
    ∧ players room' = players room ++ [joiner]
    ∧ length (players room') = 2%nat
    ∧ ∀ evs rooms2 out third s',
        Forall (λ e, event_ok e.2
                     ∧ (e.2 = Disconnect → e.1 ∉ players room')) evs →
        run (r_rooms (on_joinRoom rooms joiner (join_payload s))) evs
        = Some (rooms2, out) →
        toUpperCase s' = k →
        on_joinRoom rooms2 third (join_payload s')
        = mkResult rooms2 [SocketEmit third (EvError SessionFull)] Returned.
Proof.
  intros Hreach Hget Hfew Hnot Hs.
  pose proof (reachable_ok _ Hreach) as Hok.
  pose proof (on_joinRoom_ok rooms joiner (join_payload s) Hok) as Hok1.
  destruct (reachable_room_ok _ _ _ Hreach Hget) as (_ & Hlen & _).
  apply rooms_get_Some_elem_of in Hget as Hin.
  destruct (store_ok_code _ _ _ Hok Hin) as [Hcode [Hsix _]].
  revert Hok1. rewrite (on_joinRoom_success rooms joiner s room).
  2:{ rewrite <- toUpperCase_length. by rewrite Hs. }
  2:{ by rewrite Hs. }
  2:{ done. }
  2:{ by apply findPlayerRoom_None_all. }
  rewrite Hs. cbn [r_rooms]. intros Hok1.
  exists (joined room joiner).
  assert (Hget1 : rooms_get (rooms_set rooms k (joined room joiner)) k
                  = Some (joined room joiner))
    by (rewrite rooms_get_set; by rewrite decide_True).
  assert (Htwo : length (players (joined room joiner)) = 2%nat).
  { cbn [joined players]. rewrite length_app. simpl. lia. }
  split; [done|]. split; [done|]. split; [done|].
  intros evs rooms2 out third s' Hevs Hrun Hs'.
  destruct (run_inv
              (λ rs, ∃ r, rooms_get rs k = Some r
                          ∧ players r = players (joined room joiner))
              (λ socketId ev,
                 ev = Disconnect → socketId ∉ players (joined room joiner))
              _ _ _ _
              (λ rooms0 socketId ev res H0 HI Hev Hh,
                 handle_keeps_players rooms0 socketId ev res k
                   (players (joined room joiner)) H0 HI
                   (eq_ind_r (λ n, (2 ≤ n)%nat) (le_n 2) Htwo) Hev Hh)
              Hok1 (ex_intro _ _ (conj Hget1 eq_refl)) Hevs Hrun)
    as [_ (room2 & Hget2 & Hps)].
  unfold on_joinRoom, getRoom.
  change (roomCode_toUpperCase (join_payload s'))
    with (Ok (Some (toUpperCase s'))).
  cbv iota. rewrite toUpperCase_idemp, Hs', Hget2, Hps, Htwo.
  rewrite (bool_decide_eq_false_2 (k = "")).
  2:{ intros Heq. rewrite Heq in Hsix. simpl in Hsix. lia. }
  by rewrite bool_decide_eq_false_2 by (intros H; by apply H).
Qed.

Lemma third_join_refused_witness :
  on_joinRoom store_played "c" (join_payload "AbCdEf")
  = mkResult store_played [SocketEmit "c" (EvError SessionFull)] Returned.
Proof.
  destruct (third_join_refused store_created "ABCDEF" (fresh_room "ABCDEF" "a")
              "b" "abcdef")
    as (room' & _ & Hps & _ & Hlater).
  - apply store_created_reachable.
  - reflexivity.
  - simpl. lia.
  - compute_done.
  - reflexivity.
  - apply (Hlater [("a", MakeMove (move_payload 0))] store_played
             (r_out (on_makeMove store_started "a" (move_payload 0)))).
    + constructor; [|constructor].
      split; [exact I|]. intros Hd. discriminate Hd.
    + reflexivity.
    + reflexivity.
Defined.
